(** * FracLib: a shallow embedding of [src/frac.cpp] (v1.1.0)

    The C++ class [FracLib::Frac] holds three [int] fields.  Each [int] is a
    [Z] in the signed 32-bit range; arithmetic that leaves the range wraps
    around modulo 2^32 (the two's-complement behaviour of the compiled code),
    and the two integer divisions the hardware refuses (a zero divisor, and
    [INT_MIN / -1]) are kept apart as a fault.  Member functions that mutate
    [*this] and may throw are computations in a small state-and-exception
    monad whose state survives a throw, as the fields of a C++ object do.

    The constructor from [float], [toFrac], [toFloat], [toDouble] and
    [operator>>] work on floating-point numbers and are left out, as are the
    overloads that only forward to them.

    Part I holds the definitions, under the names of the source; Part II
    the theorems on the documented behaviour; Part III further properties
    of the operators, of [simplify] and of the parser. *)

From Stdlib Require Import ZArith Lia Bool List String Ascii QArith Znumtheory.
From Stdlib Require Import DecimalString.
From Stdlib Require DecimalPos.
Import ListNotations.

Local Open Scope Z_scope.

(* ================================================================== *)
(** * Part I: definitions *)

(** ** 32-bit signed integers *)

Module Int32.

Definition INT_MIN : Z := - 2 ^ 31.
Definition INT_MAX : Z := 2 ^ 31 - 1.

(** [in_range z]: [z] is the value of some C++ [int]. *)
Definition in_range (z : Z) : Prop := INT_MIN <= z <= INT_MAX.

Definition in_rangeb (z : Z) : bool := (INT_MIN <=? z) && (z <=? INT_MAX).

(** Two's-complement reduction of a mathematical integer to an [int]. *)
Definition wrap (z : Z) : Z := (z + 2 ^ 31) mod 2 ^ 32 - 2 ^ 31.

Definition add (a b : Z) : Z := wrap (a + b).
Definition sub (a b : Z) : Z := wrap (a - b).
Definition mul (a b : Z) : Z := wrap (a * b).
Definition neg (a : Z) : Z := wrap (- a).

(** [std::abs] on [int]; [abs INT_MIN] wraps back to [INT_MIN]. *)
Definition abs (a : Z) : Z := wrap (Z.abs a).

(** The operand pairs on which the machine's signed division faults. *)
Definition div_faults (a b : Z) : bool :=
  (b =? 0) || ((a =? INT_MIN) && (b =? -1)).

End Int32.

Import Int32.

(** ** Outcomes and the state-and-exception monad *)

(** The three exceptions the library throws (named after its message
    constants), and the three ways a call can fail to return at all. *)
Inductive error : Type :=
| ZERO_DIVISOR_ERROR               (* std::invalid_argument *)
| OVERFLOW_ERROR                   (* std::overflow_error *)
| INVALID_STRING_PARAMETER_ERROR   (* std::invalid_argument *)
| DIVIDE_FAULT                     (* x / 0, x % 0, INT_MIN / -1 *)
| CONVERSION_OUT_OF_RANGE          (* double -> int outside the int range *)
| LOOPS_FOREVER.                   (* a while(true) that never breaks *)

Inductive result (A : Type) : Type :=
| Ok (a : A)
| Err (e : error).

Arguments Ok {A} a.
Arguments Err {A} e.

(** [M S A]: a computation over a mutable state [S]; when it fails the
    state reached so far is still there. *)
Definition M (S A : Type) : Type := S -> S * result A.

Definition ret {S A} (a : A) : M S A := fun s => (s, Ok a).

Definition bind {S A B} (m : M S A) (k : A -> M S B) : M S B :=
  fun s =>
    match m s with
    | (s', Ok a) => k a s'
    | (s', Err e) => (s', Err e)
    end.

Definition throw {S A} (e : error) : M S A := fun s => (s, Err e).
Definition get {S} : M S S := fun s => (s, Ok s).
Definition modify {S} (f : S -> S) : M S unit := fun s => (f s, Ok tt).
Definition lift {S A} (r : result A) : M S A := fun s => (s, r).

Declare Scope monad_scope.
Delimit Scope monad_scope with monad.
Notation "x <- m ;; k" := (bind m (fun x => k))
  (at level 61, m at next level, right associativity) : monad_scope.
Notation "m ;; k" := (bind m (fun _ => k))
  (at level 61, right associativity) : monad_scope.
Local Open Scope monad_scope.

(** An object built by a constructor exists only if the body returned. *)
Definition constructed {S A} (p : S * result A) : result S :=
  match p with
  | (s, Ok _) => Ok s
  | (_, Err e) => Err e
  end.

(** C++ [a / b] and [a % b] on [int]: truncation towards zero. *)
Definition idiv (a b : Z) : result Z :=
  if div_faults a b then Err DIVIDE_FAULT else Ok (Z.quot a b).

Definition irem (a b : Z) : result Z :=
  if div_faults a b then Err DIVIDE_FAULT else Ok (Z.rem a b).

(** ** Utilities *)

Definition willMultiplicationOverflow (a b : Z) : bool :=
  if (a =? 0) || (b =? 0) then false
  else if (a =? -1) && (b =? INT_MIN) then true
  else if (b =? -1) && (a =? INT_MIN) then true
  else
    let result := mul a b in
    negb (Z.quot result b =? a).

Definition willAdditionOverflow (a b : Z) : bool :=
  if (b >? 0) && (a >? sub INT_MAX b) then true
  else if (b <? 0) && (a <? sub INT_MIN b) then true
  else false.

Definition willSubtractionOverflow (a b : Z) : bool :=
  if (b <? 0) && (a >? add INT_MAX b) then true
  else if (b >? 0) && (a <? add INT_MIN b) then true
  else false.

(** ** The class *)

Record Frac : Type := mkFrac {
  numerator : Z;
  denominator : Z;
  whole : Z
}.

Definition set_numerator (v : Z) (f : Frac) : Frac :=
  mkFrac v (denominator f) (whole f).
Definition set_denominator (v : Z) (f : Frac) : Frac :=
  mkFrac (numerator f) v (whole f).
Definition set_whole (v : Z) (f : Frac) : Frac :=
  mkFrac (numerator f) (denominator f) v.

(** Every field holds an [int]. *)
Definition well_typed (f : Frac) : Prop :=
  in_range (numerator f) /\ in_range (denominator f) /\ in_range (whole f).

(** The euclidean loop of [simplify].  [fuel] bounds the number of
    iterations; the C++ loop has no bound, and running out of fuel stands
    for a loop that is still going. *)
Fixpoint gcd_loop (fuel : nat) (a b : Z) : result Z :=
  match fuel with
  | O => Err LOOPS_FOREVER
  | S fuel' =>
      if a >? b then
        match irem a b with
        | Err e => Err e
        | Ok a' => if a' =? 0 then Ok b else gcd_loop fuel' a' b
        end
      else
        match irem b a with
        | Err e => Err e
        | Ok b' => if b' =? 0 then Ok a else gcd_loop fuel' a b'
        end
  end.

(** The fuel [simplify] passes: enough for any pair of positive operands. *)
Definition gcd_fuel (a b : Z) : nat := Z.to_nat (Z.abs a + Z.abs b).

Definition simplify : M Frac unit :=
  this <- get ;;
  if denominator this =? 0 then ret tt
  else if numerator this =? 0 then
    modify (set_whole 0) ;;
    modify (set_denominator 1)
  else
    q <- lift (idiv (numerator this) (denominator this)) ;;
    modify (fun f => set_whole (add (whole f) q) f) ;;
    r <- lift (irem (numerator this) (denominator this)) ;;
    modify (set_numerator r) ;;
    this <- get ;;
    (if (numerator this <? 0) && negb (whole this =? 0) then
       modify (fun f => set_numerator (add (numerator f) (abs (denominator f))) f) ;;
       modify (fun f => set_whole (sub (whole f) (if numerator f >? 0 then 1 else 0)) f)
     else ret tt) ;;
    this <- get ;;
    let a := abs (numerator this) in
    let b := abs (denominator this) in
    gcd <- lift (gcd_loop (gcd_fuel a b) a b) ;;
    n' <- lift (idiv (numerator this) gcd) ;;
    modify (set_numerator n') ;;
    d' <- lift (idiv (denominator this) gcd) ;;
    modify (set_denominator d') ;;
    this <- get ;;
    if denominator this <? 0 then
      modify (fun f => set_numerator (neg (numerator f)) f) ;;
      modify (fun f => set_denominator (neg (denominator f)) f)
    else ret tt.

(** ** Constructors *)

Definition Frac_default : Frac := mkFrac 0 1 0.

Definition Frac_int (n : Z) : Frac := mkFrac n 1 0.

Definition Frac_n_d (n d : Z) (isSimplifying : bool) : result Frac :=
  let this := mkFrac n d 0 in
  if denominator this =? 0 then Err ZERO_DIVISOR_ERROR
  else if isSimplifying then constructed (simplify this)
  else Ok this.

Definition Frac_w_n_d (w n d : Z) (isSimplifying : bool) : result Frac :=
  let this := mkFrac n d w in
  if denominator this =? 0 then Err ZERO_DIVISOR_ERROR
  else if isSimplifying then constructed (simplify this)
  else Ok this.

Definition Frac_copy (other : Frac) : Frac :=
  mkFrac (numerator other) (denominator other) (whole other).

(** ** Basic arithmetic operators *)

(** [return Frac(n, d);] — the two-argument constructor, not simplifying. *)
Definition op_add (this other : Frac) : result Frac :=
  if willMultiplicationOverflow (numerator this) (denominator other)
     || willMultiplicationOverflow (numerator other) (denominator this)
     || willMultiplicationOverflow (denominator this) (denominator other)
     || willAdditionOverflow (mul (numerator this) (denominator other))
                             (mul (numerator other) (denominator this))
  then Err OVERFLOW_ERROR
  else Frac_n_d (add (mul (numerator this) (denominator other))
                     (mul (numerator other) (denominator this)))
                (mul (denominator this) (denominator other)) false.

Definition op_add_int (this : Frac) (value : Z) : result Frac :=
  if willMultiplicationOverflow (denominator this) value then Err OVERFLOW_ERROR
  else if willAdditionOverflow (numerator this) (mul (denominator this) value)
  then Err OVERFLOW_ERROR
  else Frac_n_d (add (numerator this) (mul (denominator this) value))
                (denominator this) false.

Definition op_sub (this other : Frac) : result Frac :=
  if willMultiplicationOverflow (numerator this) (denominator other)
     || willMultiplicationOverflow (denominator this) (numerator other)
     || willMultiplicationOverflow (denominator this) (denominator other)
  then Err OVERFLOW_ERROR
  else if willSubtractionOverflow (mul (numerator this) (denominator other))
                                  (mul (denominator this) (numerator other))
  then Err OVERFLOW_ERROR
  else Frac_n_d (sub (mul (numerator this) (denominator other))
                     (mul (denominator this) (numerator other)))
                (mul (denominator this) (denominator other)) false.

Definition op_sub_int (this : Frac) (value : Z) : result Frac :=
  if willMultiplicationOverflow (denominator this) value then Err OVERFLOW_ERROR
  else if willSubtractionOverflow (numerator this) (mul (denominator this) value)
  then Err OVERFLOW_ERROR
  else Frac_n_d (sub (numerator this) (mul (denominator this) value))
                (denominator this) false.

Definition op_mul (this other : Frac) : result Frac :=
  if willMultiplicationOverflow (numerator this) (numerator other)
     || willMultiplicationOverflow (denominator this) (denominator other)
  then Err OVERFLOW_ERROR
  else Frac_n_d (mul (numerator this) (numerator other))
                (mul (denominator this) (denominator other)) false.

Definition op_mul_int (this : Frac) (value : Z) : result Frac :=
  if willMultiplicationOverflow (numerator this) value then Err OVERFLOW_ERROR
  else Frac_n_d (mul (numerator this) value) (denominator this) false.

Definition op_div (this other : Frac) : result Frac :=
  if (numerator other =? 0) || (denominator this =? 0)
  then Err ZERO_DIVISOR_ERROR
  else if willMultiplicationOverflow (numerator this) (denominator other)
          || willMultiplicationOverflow (denominator this) (numerator other)
  then Err OVERFLOW_ERROR
  else Frac_n_d (mul (numerator this) (denominator other))
                (mul (denominator this) (numerator other)) false.

Definition op_div_int (this : Frac) (value : Z) : result Frac :=
  if numerator this =? 0 then Err ZERO_DIVISOR_ERROR
  else if willMultiplicationOverflow (denominator this) value
  then Err OVERFLOW_ERROR
  else Frac_n_d (mul (denominator this) value) (numerator this) false.

(** Reversed order: the free functions taking the [int] first. *)

Definition int_op_add (value : Z) (frac : Frac) : result Frac :=
  if willMultiplicationOverflow value (denominator frac) then Err OVERFLOW_ERROR
  else if willAdditionOverflow (numerator frac) (mul value (denominator frac))
  then Err OVERFLOW_ERROR
  else
    let newNumerator := add (numerator frac) (mul value (denominator frac)) in
    let newDenominator := denominator frac in
    Frac_n_d newNumerator newDenominator false.

Definition int_op_sub (value : Z) (frac : Frac) : result Frac :=
  Frac_n_d (sub (numerator frac) (mul (denominator frac) value))
           (denominator frac) false.

Definition int_op_mul (value : Z) (frac : Frac) : result Frac :=
  Frac_n_d (mul (numerator frac) value) (denominator frac) false.


(** ** Compound operators: they mutate [*this]

    The right operand is a reference, [const Frac& other]: it names either
    [*this] itself (as in [a /= a]) or another object.  Every read of
    [other.numerator] or [other.denominator] goes through the reference at
    the moment its statement runs, so once a field of [*this] has been
    written, an aliasing [other] shows the new value. *)

Inductive reference : Type :=
| this_object
| other_object (f : Frac).

(** The object [other] names while [*this] holds [this]. *)
Definition deref (other : reference) (this : Frac) : Frac :=
  match other with
  | this_object => this
  | other_object f => f
  end.

(** Both locals are computed before either field is written. *)
Definition op_add_assign (other : reference) : M Frac unit :=
  this <- get ;;
  let o := deref other this in
  if willMultiplicationOverflow (numerator this) (denominator o)
     || willMultiplicationOverflow (numerator o) (denominator this)
     || willMultiplicationOverflow (denominator this) (denominator o)
     || willAdditionOverflow (mul (numerator this) (denominator o))
                             (mul (numerator o) (denominator this))
  then throw OVERFLOW_ERROR
  else
    let newNumerator := add (mul (numerator this) (denominator o))
                            (mul (numerator o) (denominator this)) in
    let newDenominator := mul (denominator this) (denominator o) in
    modify (set_numerator newNumerator) ;;
    modify (set_denominator newDenominator).

Definition op_add_assign_int (value : Z) : M Frac unit :=
  this <- get ;;
  if willMultiplicationOverflow (denominator this) value then throw OVERFLOW_ERROR
  else if willAdditionOverflow (numerator this) (mul (denominator this) value)
  then throw OVERFLOW_ERROR
  else modify (fun f => set_numerator (add (numerator f) (mul (denominator f) value)) f).

Definition op_sub_assign (other : reference) : M Frac unit :=
  this <- get ;;
  let o := deref other this in
  if willMultiplicationOverflow (numerator this) (denominator o)
     || willMultiplicationOverflow (denominator this) (numerator o)
     || willMultiplicationOverflow (denominator this) (denominator o)
  then throw OVERFLOW_ERROR
  else if willSubtractionOverflow (mul (numerator this) (denominator o))
                                  (mul (denominator this) (numerator o))
  then throw OVERFLOW_ERROR
  else
    modify (fun f => set_numerator
                       (sub (mul (numerator f) (denominator (deref other f)))
                            (mul (denominator f) (numerator (deref other f)))) f) ;;
    modify (fun f => set_denominator
                       (mul (denominator f) (denominator (deref other f))) f).

Definition op_sub_assign_int (value : Z) : M Frac unit :=
  this <- get ;;
  if willMultiplicationOverflow (denominator this) value then throw OVERFLOW_ERROR
  else if willSubtractionOverflow (numerator this) (mul (denominator this) value)
  then throw OVERFLOW_ERROR
  else modify (fun f => set_numerator (sub (numerator f) (mul (denominator f) value)) f).

Definition op_mul_assign (other : reference) : M Frac unit :=
  this <- get ;;
  let o := deref other this in
  if willMultiplicationOverflow (numerator this) (numerator o)
     || willMultiplicationOverflow (denominator this) (denominator o)
  then throw OVERFLOW_ERROR
  else
    modify (fun f => set_numerator
                       (mul (numerator f) (numerator (deref other f))) f) ;;
    modify (fun f => set_denominator
                       (mul (denominator f) (denominator (deref other f))) f).

Definition op_mul_assign_int (value : Z) : M Frac unit :=
  this <- get ;;
  if willMultiplicationOverflow (numerator this) value then throw OVERFLOW_ERROR
  else modify (fun f => set_numerator (mul (numerator f) value) f).

(** [this->numerator *= other.denominator;
     this->denominator *= other.numerator;] — when [other] is [*this], the
    second statement multiplies by the numerator the first one has just
    written. *)
Definition op_div_assign (other : reference) : M Frac unit :=
  this <- get ;;
  let o := deref other this in
  if (numerator o =? 0) || (denominator this =? 0)
  then throw ZERO_DIVISOR_ERROR
  else if willMultiplicationOverflow (numerator this) (denominator o)
          || willMultiplicationOverflow (denominator this) (numerator o)
  then throw OVERFLOW_ERROR
  else
    modify (fun f => set_numerator
                       (mul (numerator f) (denominator (deref other f))) f) ;;
    modify (fun f => set_denominator
                       (mul (denominator f) (numerator (deref other f))) f).

(** [this->numerator = this->denominator * value;
     this->denominator = this->numerator;] — the second statement reads the
    field the first one has just written. *)
Definition op_div_assign_int (value : Z) : M Frac unit :=
  this <- get ;;
  if numerator this =? 0 then throw ZERO_DIVISOR_ERROR
  else if willMultiplicationOverflow value (denominator this)
  then throw OVERFLOW_ERROR
  else
    modify (fun f => set_numerator (mul (denominator f) value) f) ;;
    modify (fun f => set_denominator (numerator f) f).

(** ** Increment and decrement *)

(** The three reference parameters are the three fields of one object. *)
Definition incrementLogic (isPrefix : bool) : M Frac unit :=
  this <- get ;;
  if negb (whole this =? 0) then
    modify (fun f => set_numerator (add (numerator f) (mul (whole f) (denominator f))) f) ;;
    this <- get ;;
    (if willAdditionOverflow (numerator this) 1 then throw OVERFLOW_ERROR else ret tt) ;;
    (if isPrefix
     then modify (fun f => set_numerator (add (numerator f) 1) f)
     else modify (fun f => set_numerator (add (numerator f) 1) f)) ;;
    this <- get ;;
    q <- lift (idiv (numerator this) (denominator this)) ;;
    modify (set_whole q) ;;
    r <- lift (irem (numerator this) (denominator this)) ;;
    modify (set_numerator r) ;;
    this <- get ;;
    if denominator this <? 0 then
      modify (fun f => set_numerator (neg (numerator f)) f) ;;
      modify (fun f => set_denominator (neg (denominator f)) f)
    else ret tt
  else
    (if willAdditionOverflow (numerator this) 1 then throw OVERFLOW_ERROR else ret tt) ;;
    if isPrefix
    then modify (fun f => set_numerator (add (numerator f) 1) f)
    else modify (fun f => set_numerator (add (numerator f) 1) f).

Definition decrementLogic (isPrefix : bool) : M Frac unit :=
  this <- get ;;
  if negb (whole this =? 0) then
    modify (fun f => set_numerator (add (numerator f) (mul (whole f) (denominator f))) f) ;;
    this <- get ;;
    (if willAdditionOverflow (numerator this) (-1) then throw OVERFLOW_ERROR else ret tt) ;;
    (if isPrefix
     then modify (fun f => set_numerator (sub (numerator f) 1) f)
     else modify (fun f => set_numerator (sub (numerator f) 1) f)) ;;
    this <- get ;;
    q <- lift (idiv (numerator this) (denominator this)) ;;
    modify (set_whole q) ;;
    r <- lift (irem (numerator this) (denominator this)) ;;
    modify (set_numerator r) ;;
    this <- get ;;
    if denominator this <? 0 then
      modify (fun f => set_numerator (neg (numerator f)) f) ;;
      modify (fun f => set_denominator (neg (denominator f)) f)
    else ret tt
  else
    (if willAdditionOverflow (numerator this) 1 then throw OVERFLOW_ERROR else ret tt) ;;
    if isPrefix
    then modify (fun f => set_numerator (sub (numerator f) 1) f)
    else modify (fun f => set_numerator (sub (numerator f) 1) f).

(** Prefix forms return [*this]; postfix forms return the copy taken first. *)
Definition op_pre_inc : M Frac Frac := incrementLogic true ;; get.
Definition op_pre_dec : M Frac Frac := decrementLogic true ;; get.

Definition op_post_inc : M Frac Frac :=
  temp <- get ;;
  incrementLogic false ;;
  ret (Frac_copy temp).

Definition op_post_dec : M Frac Frac :=
  temp <- get ;;
  decrementLogic false ;;
  ret (Frac_copy temp).

(** ** Unary minus *)

Definition op_neg (this : Frac) : result Frac :=
  if negb (whole this =? 0)
  then Frac_w_n_d (neg (whole this)) (numerator this) (denominator this) false
  else Frac_n_d (neg (numerator this)) (denominator this) false.

(** ** Comparison operators *)

Definition op_eq (this other : Frac) : bool :=
  let lhsNumerator := add (mul (whole this) (denominator this)) (numerator this) in
  let rhsNumerator := add (mul (whole other) (denominator other)) (numerator other) in
  mul lhsNumerator (denominator other) =? mul rhsNumerator (denominator this).

Definition op_ne (this other : Frac) : bool := negb (op_eq this other).

Definition op_ge (this other : Frac) : bool :=
  let lhsNumerator := add (mul (whole this) (denominator this)) (numerator this) in
  let rhsNumerator := add (mul (whole other) (denominator other)) (numerator other) in
  mul lhsNumerator (denominator other) >=? mul rhsNumerator (denominator this).

Definition op_le (this other : Frac) : bool :=
  let lhsNumerator := add (mul (whole this) (denominator this)) (numerator this) in
  let rhsNumerator := add (mul (whole other) (denominator other)) (numerator other) in
  mul lhsNumerator (denominator other) <=? mul rhsNumerator (denominator this).

Definition op_gt (this other : Frac) : bool :=
  let lhsNumerator := add (mul (whole this) (denominator this)) (numerator this) in
  let rhsNumerator := add (mul (whole other) (denominator other)) (numerator other) in
  mul lhsNumerator (denominator other) >? mul rhsNumerator (denominator this).

Definition op_lt (this other : Frac) : bool :=
  let lhsNumerator := add (mul (whole this) (denominator this)) (numerator this) in
  let rhsNumerator := add (mul (whole other) (denominator other)) (numerator other) in
  mul lhsNumerator (denominator other) <? mul rhsNumerator (denominator this).

(** ** Misc operators *)

(** [std::to_string(int)]: decimal digits, a leading '-' when negative. *)
Definition to_string (z : Z) : string := NilZero.string_of_int (Z.to_int z).

(** What [operator<<] writes to the stream. *)
Definition op_insert (frac : Frac) : string :=
  let prefix :=
    if negb (whole frac =? 0) then (to_string (whole frac) ++ " ")%string
    else EmptyString in
  (prefix ++ to_string (numerator frac) ++ "/" ++ to_string (denominator frac))%string.

(** Objects live at addresses; [operator=] compares the two addresses
    before it copies, so it is a function of the store. *)
Definition store : Type := list Frac.

Fixpoint store_set (addr : nat) (v : Frac) (s : store) : store :=
  match s, addr with
  | [], _ => []
  | _ :: rest, O => v :: rest
  | f :: rest, S addr' => f :: store_set addr' v rest
  end.

Definition store_update (addr : nat) (g : Frac -> Frac) (s : store) : store :=
  match nth_error s addr with
  | Some f => store_set addr (g f) s
  | None => s
  end.

Definition store_field (addr : nat) (field : Frac -> Z) (s : store) : Z :=
  match nth_error s addr with
  | Some f => field f
  | None => 0
  end.

(** [Frac& Frac::operator=(const Frac& other)] with [this] and [&other]. *)
Definition op_assign (this other : nat) (s : store) : store :=
  if negb (Nat.eqb this other) then
    let s1 := store_update this (set_numerator (store_field other numerator s)) s in
    store_update this (set_denominator (store_field other denominator s1)) s1
  else s.

(** ** Methods *)

Definition toImproper (frac : Frac) : Frac :=
  let result := Frac_copy frac in
  let result := set_numerator (add (mul (whole result) (denominator result))
                                   (numerator result)) result in
  set_whole 0 result.

Definition toReciprocal (frac : Frac) : result Frac :=
  if numerator frac =? 0 then Err ZERO_DIVISOR_ERROR
  else Frac_n_d (denominator frac) (numerator frac) false.

(** [SimplifyFrac] works on the caller's object. *)
Definition SimplifyFrac : M Frac unit := simplify.

(** [Simplify] takes its argument by value and returns the simplified copy;
    nothing is returned when [simplify] does not return. *)
Definition Simplify (frac : Frac) : result Frac := constructed (simplify frac).

Definition toString (frac : Frac) : string :=
  if negb (whole frac =? 0)
  then (to_string (whole frac) ++ " " ++ to_string (numerator frac) ++ "/"
        ++ to_string (denominator frac))%string
  else (to_string (numerator frac) ++ "/" ++ to_string (denominator frac))%string.

(** ** Parsing *)

(** The state of [parseFromStream]: the characters still in the stream and
    the object being filled in. *)
Record parse_state : Type := mkParse {
  input : list ascii;
  object : Frac
}.

Definition on_input (g : list ascii -> list ascii) (s : parse_state) : parse_state :=
  mkParse (g (input s)) (object s).

Definition on_object {A} (m : M Frac A) : M parse_state A :=
  fun s =>
    let '(f, r) := m (object s) in
    (mkParse (input s) f, r).

(** [is.peek()]: [None] is EOF. *)
Definition peek : M parse_state (option ascii) :=
  s <- get ;; ret (hd_error (input s)).

(** [is.get()]. *)
Definition get_char : M parse_state unit := modify (on_input (@tl ascii)).

Definition char_code (c : ascii) : Z := Z.of_N (N_of_ascii c).

(** [std::isdigit(is.peek())]. *)
Definition isdigit (c : option ascii) : bool :=
  match c with
  | Some ch => (48 <=? char_code ch) && (char_code ch <=? 57)
  | None => false
  end.

Definition is_blank (c : ascii) : bool :=
  Ascii.eqb c " " || Ascii.eqb c "009".

(** The lambda [isDigit]. *)
Definition isDigit : M parse_state unit :=
  c <- peek ;;
  if negb (isdigit c) then throw INVALID_STRING_PARAMETER_ERROR else ret tt.

Fixpoint skip_blanks (l : list ascii) : list ascii :=
  match l with
  | c :: rest => if is_blank c then skip_blanks rest else l
  | [] => []
  end.

(** The lambda [consumeWhitespace]. *)
Definition consumeWhitespace : M parse_state unit := modify (on_input skip_blanks).

(** The loop of the lambda [parseNumber].  [temp * std::pow(10,1) + digit]
    is computed in [double], exactly, and converted back to [int]; the
    conversion is undefined once the value leaves the [int] range. *)
Fixpoint parse_digits (temp : Z) (l : list ascii) : list ascii * result Z :=
  match l with
  | c :: rest =>
      if isdigit (Some c) then
        let next := temp * 10 + (char_code c - 48) in
        if in_rangeb next then parse_digits next rest
        else (l, Err CONVERSION_OUT_OF_RANGE)
      else (l, Ok temp)
  | [] => ([], Ok temp)
  end.

Definition parseNumber : M parse_state Z :=
  fun s =>
    let '(rest, r) := parse_digits 0 (input s) in
    (mkParse rest (object s), r).

Definition parseFromStream (isSimplifying : bool) : M parse_state unit :=
  consumeWhitespace ;;
  isDigit ;;
  num <- parseNumber ;;
  c <- peek ;;
  match c with
  | None =>
      (* Found whole number, not a fraction. *)
      on_object (modify (set_numerator num)) ;;
      on_object (modify (set_denominator num))
  | Some ch =>
      get_char ;;
      parsed <-
        (if Ascii.eqb ch " " then
           let whole := num in
           consumeWhitespace ;;
           isDigit ;;
           num <- parseNumber ;;
           c <- peek ;;
           match c with
           | None => throw INVALID_STRING_PARAMETER_ERROR
           | Some ch =>
               if negb (Ascii.eqb ch "/") then throw INVALID_STRING_PARAMETER_ERROR
               else
                 get_char ;;
                 consumeWhitespace ;;
                 isDigit ;;
                 denom <- parseNumber ;;
                 ret (whole, num, denom)
           end
         else if Ascii.eqb ch "/" then
           consumeWhitespace ;;
           isDigit ;;
           denom <- parseNumber ;;
           ret (0, num, denom)
         else throw INVALID_STRING_PARAMETER_ERROR) ;;
      let '(whole, num, denom) := parsed in
      consumeWhitespace ;;
      if denom =? 0 then throw ZERO_DIVISOR_ERROR
      else
        on_object (modify (set_denominator denom)) ;;
        (if negb (whole =? 0) then
           this <- on_object get ;;
           if willMultiplicationOverflow (denominator this) whole
           then throw OVERFLOW_ERROR
           else
             on_object (modify (fun f => set_numerator (mul (denominator f) whole) f)) ;;
             this <- on_object get ;;
             if willAdditionOverflow (numerator this) num
             then throw OVERFLOW_ERROR
             else on_object (modify (fun f => set_numerator (add (numerator f) num) f))
         else on_object (modify (set_numerator num))) ;;
        if isSimplifying then on_object simplify else ret tt
  end.

(** [Frac::Frac(const char* fracStr, bool isSimplifying)].  Only [whole] is
    initialised before the body runs; [uninit] stands for whatever the other
    two fields hold at that point. *)
Definition Frac_cstr (uninit : Frac) (fracStr : string) (isSimplifying : bool)
  : result Frac :=
  let this := set_whole 0 uninit in
  match parseFromStream isSimplifying (mkParse (list_ascii_of_string fracStr) this) with
  | (s, Ok _) => Ok (object s)
  | (_, Err e) => Err e
  end.

(** [Frac& Frac::operator=(const char* str)]. *)
Definition op_assign_cstr (str : string) : M Frac unit :=
  fun this =>
    let '(s, r) := parseFromStream false (mkParse (list_ascii_of_string str) this) in
    (object s, r).

(** ** The rational number a [Frac] stands for

    [toDouble] and [toFloat] form [n = whole * denominator + numerator] and
    divide by [denominator]; [value] is that quotient taken exactly. *)
Definition improper_numerator (f : Frac) : Z :=
  whole f * denominator f + numerator f.

Definition value (f : Frac) : Q :=
  (inject_Z (improper_numerator f) / inject_Z (denominator f))%Q.

(* ================================================================== *)
(** * Part II: theorems *)

(** ** Facts about 32-bit arithmetic *)

Module Int32Facts.

Lemma in_rangeb_spec z : in_rangeb z = true <-> in_range z.
Proof.
  unfold in_rangeb, in_range.
  rewrite andb_true_iff, !Z.leb_le. tauto.
Qed.

Lemma wrap_in_range z : in_range (wrap z).
Proof.
  unfold in_range, wrap, INT_MIN, INT_MAX.
  pose proof (Z.mod_pos_bound (z + 2 ^ 31) (2 ^ 32) ltac:(lia)). lia.
Qed.

Lemma wrap_id z : in_range z -> wrap z = z.
Proof.
  unfold in_range, wrap, INT_MIN, INT_MAX. intros H.
  rewrite Z.mod_small by lia. lia.
Qed.

(** [wrap z] differs from [z] by a multiple of 2^32. *)
Lemma wrap_eqm z : exists k, wrap z = z - k * 2 ^ 32.
Proof.
  exists ((z + 2 ^ 31) / 2 ^ 32). unfold wrap.
  pose proof (Z.div_mod (z + 2 ^ 31) (2 ^ 32) ltac:(lia)). lia.
Qed.

Lemma wrap_fixed_iff z : wrap z = z <-> in_range z.
Proof.
  split; [intros <-; apply wrap_in_range | apply wrap_id].
Qed.

(** Reduction can wait: an outer [wrap] absorbs the inner ones. *)
Lemma wrap_add_l a b : wrap (wrap a + b) = wrap (a + b).
Proof.
  destruct (wrap_eqm a) as [k ->]. unfold wrap.
  replace (a - k * 2 ^ 32 + b + 2 ^ 31)
    with (a + b + 2 ^ 31 + (- k) * 2 ^ 32) by lia.
  now rewrite Z.mod_add by lia.
Qed.

Lemma wrap_mul_l a b : wrap (wrap a * b) = wrap (a * b).
Proof.
  destruct (wrap_eqm a) as [k ->]. unfold wrap.
  replace ((a - k * 2 ^ 32) * b + 2 ^ 31)
    with (a * b + 2 ^ 31 + (- k * b) * 2 ^ 32) by lia.
  now rewrite Z.mod_add by lia.
Qed.

Lemma abs_pos z : in_range z -> z <> INT_MIN -> abs z = Z.abs z.
Proof.
  unfold abs, in_range, INT_MIN, INT_MAX. intros H Hm.
  apply wrap_id. unfold in_range, INT_MIN, INT_MAX. lia.
Qed.

End Int32Facts.

Import Int32Facts.

(** ** The repository's tests, run on the embedding

    The expected strings are those of [tests/main.cpp]. *)

Example test_DefaultConstructor :
  numerator Frac_default = 0 /\ denominator Frac_default = 1.
Proof. split; reflexivity. Qed.

Example test_toImproper : toImproper (mkFrac 2 3 1) = mkFrac 5 3 0.
Proof. reflexivity. Qed.

Example test_toString : toString (mkFrac 1 2 1) = "1 1/2"%string.
Proof. reflexivity. Qed.

Example test_Negation :
  exists frac, op_neg (mkFrac 1 2 1) = Ok frac /\ toString frac = "-1 1/2"%string.
Proof. eexists. split; reflexivity. Qed.

Example test_PreIncrement :
  toString (fst (op_pre_inc (mkFrac 1 2 1))) = "2 0/2"%string.
Proof. reflexivity. Qed.

Example test_PostIncrement :
  toString (fst (op_post_inc (mkFrac 1 2 1))) = "2 0/2"%string.
Proof. reflexivity. Qed.

Example test_PreDecrement :
  toString (fst (op_pre_dec (mkFrac 1 2 1))) = "1 0/2"%string.
Proof. reflexivity. Qed.

Example test_PostDecrement :
  toString (fst (op_post_dec (mkFrac 1 2 1))) = "1 0/2"%string.
Proof. reflexivity. Qed.

Example test_Relational : op_ge (mkFrac 1 2 1) (mkFrac 1 2 0) = true.
Proof. reflexivity. Qed.

Example parse_fraction (uninit : Frac) :
  Frac_cstr uninit "3/4" false = Ok (mkFrac 3 4 0) /\
  Frac_cstr uninit "1 1/2" false = Ok (mkFrac 3 2 0) /\
  Frac_cstr uninit "1/0" false = Err ZERO_DIVISOR_ERROR /\
  Frac_cstr uninit "abc" false = Err INVALID_STRING_PARAMETER_ERROR.
Proof. repeat split. Qed.

(** ** The multiplication overflow check *)

(** The one division in [willMultiplicationOverflow] is never one of the
    faulting ones, so the function always returns. *)
Lemma willMultiplicationOverflow_division_safe (a b : Z) :
  in_range a -> in_range b ->
  (a =? 0) || (b =? 0) = false ->
  (a =? -1) && (b =? INT_MIN) = false ->
  (b =? -1) && (a =? INT_MIN) = false ->
  div_faults (mul a b) b = false.
Proof.
  intros Ha Hb H0 H1 H2. unfold div_faults.
  apply orb_false_elim in H0 as [_ Hb0]. rewrite Hb0. simpl.
  destruct (Z.eqb_spec b (-1)) as [-> | Hb1]; [| now rewrite andb_false_r].
  simpl in H2. apply Z.eqb_neq in H2.
  rewrite andb_true_r. apply Z.eqb_neq. unfold mul.
  rewrite wrap_id; unfold in_range, INT_MIN, INT_MAX in *; lia.
Qed.

(** C9.  For 32-bit signed [a] and [b], [willMultiplicationOverflow a b]
    is true exactly when the mathematical product [a * b] lies outside
    [INT_MIN, INT_MAX]; the product computed inside the function is the
    wrapped one ([mul], arithmetic modulo 2^32).  The case
    [INT_MIN * -1] is among those flagged. *)
Theorem willMultiplicationOverflow_iff (a b : Z) :
  in_range a -> in_range b ->
  (willMultiplicationOverflow a b = true <-> ~ in_range (a * b)).
Proof.
  intros Ha Hb. unfold willMultiplicationOverflow.
  destruct (Z.eqb_spec a 0) as [Ha0 | Ha0]; simpl.
  { subst a. split; [discriminate | intros H; exfalso; apply H].
    unfold in_range, INT_MIN, INT_MAX. lia. }
  destruct (Z.eqb_spec b 0) as [Hb0 | Hb0]; simpl.
  { subst b. split; [discriminate | intros H; exfalso; apply H].
    rewrite Z.mul_0_r. unfold in_range, INT_MIN, INT_MAX. lia. }
  destruct (Z.eqb_spec a (-1)) as [Ha1 | Ha1];
    destruct (Z.eqb_spec b INT_MIN) as [Hbm | Hbm]; simpl;
    destruct (Z.eqb_spec b (-1)) as [Hb1 | Hb1];
    destruct (Z.eqb_spec a INT_MIN) as [Ham | Ham]; simpl;
    try (split; [intros _ | reflexivity];
         unfold in_range, INT_MIN, INT_MAX in *; nia).
  all: rewrite negb_true_iff, Z.eqb_neq; unfold mul.
  all: split.
  all: try (intros Hq Hr; apply Hq; rewrite wrap_id by exact Hr;
            apply Z.quot_mul; assumption).
  all: intros Hout Hq; apply Hout.
  all: destruct (wrap_eqm (a * b)) as [k Hk].
  all: pose proof (wrap_in_range (a * b)) as Hw.
  all: pose proof (Z.quot_rem' (wrap (a * b)) b) as Hqr.
  all: pose proof (Z.rem_bound_abs (wrap (a * b)) b ltac:(assumption)) as Hrb.
  all: rewrite Hq in Hqr.
  all: assert (k = 0) by
        (unfold in_range, INT_MIN, INT_MAX in *; nia).
  all: subst k; replace (a * b) with (wrap (a * b)) by lia; exact Hw.
Qed.

Lemma willMultiplicationOverflow_iff_witness :
  (in_range INT_MIN /\ in_range (-1)) /\
  (willMultiplicationOverflow INT_MIN (-1) = true <-> ~ in_range (INT_MIN * -1)).
Proof.
  assert (Hmin : in_range INT_MIN) by (unfold in_range, INT_MIN, INT_MAX; lia).
  assert (Hm1 : in_range (-1)) by (unfold in_range, INT_MIN, INT_MAX; lia).
  split; [split; assumption |].
  exact (willMultiplicationOverflow_iff INT_MIN (-1) Hmin Hm1).
Defined.

(** ** Copy assignment *)







(** Self-assignment is the identity on the store. *)
Lemma op_assign_self (s : store) (this : nat) : op_assign this this s = s.
Proof. unfold op_assign. now rewrite Nat.eqb_refl. Qed.

(** ** The zero-denominator invariant *)

(** The two-argument constructor never yields a zero denominator. *)
Lemma Frac_n_d_denominator (n d : Z) (r : Frac) :
  Frac_n_d n d false = Ok r -> r = mkFrac n d 0 /\ denominator r <> 0.
Proof.
  unfold Frac_n_d. simpl.
  destruct (Z.eqb_spec d 0) as [-> | Hd]; [discriminate |].
  intros [= <-]. simpl. auto.
Qed.

Lemma Frac_w_n_d_denominator (w n d : Z) (r : Frac) :
  Frac_w_n_d w n d false = Ok r -> r = mkFrac n d w /\ denominator r <> 0.
Proof.
  unfold Frac_w_n_d. simpl.
  destruct (Z.eqb_spec d 0) as [-> | Hd]; [discriminate |].
  intros [= <-]. simpl. auto.
Qed.

(** The non-mutating [Frac / int] ends in that constructor, so whatever it
    returns has a non-zero denominator. *)
Lemma op_div_int_denominator (a r : Frac) (n : Z) :
  op_div_int a n = Ok r -> denominator r <> 0.
Proof.
  unfold op_div_int.
  destruct (numerator a =? 0); [discriminate |].
  destruct (willMultiplicationOverflow (denominator a) n); [discriminate |].
  intros H. now apply Frac_n_d_denominator in H.
Qed.

(** C1, at the failing input.  [a /= 0] on [a = 1/2] throws nothing and
    leaves [a] with numerator 0 and denominator 0: the second assignment of
    [operator/=(int)] copies the numerator that the first one has just
    overwritten with [denominator * value]. *)
Theorem op_div_assign_int_zero_denominator :
  op_div_assign_int 0 (mkFrac 1 2 0) = (mkFrac 0 0 0, Ok tt).
Proof. reflexivity. Qed.

(** The same for every dividend with a non-zero numerator, and for every
    divisor: after a successful [a /= n] the two fields are equal. *)
Lemma op_div_assign_int_fields (a : Frac) (n : Z) :
  numerator a <> 0 ->
  willMultiplicationOverflow n (denominator a) = false ->
  op_div_assign_int n a =
    (mkFrac (mul (denominator a) n) (mul (denominator a) n) (whole a), Ok tt).
Proof.
  intros Hn Ho. unfold op_div_assign_int, bind, get, modify, throw.
  apply Z.eqb_neq in Hn. rewrite Hn, Ho. reflexivity.
Qed.

Lemma op_div_assign_int_by_zero (a : Frac) :
  numerator a <> 0 ->
  op_div_assign_int 0 a = (mkFrac 0 0 (whole a), Ok tt).
Proof.
  intros Hn. rewrite op_div_assign_int_fields by (assumption || reflexivity).
  unfold mul. now rewrite Z.mul_0_r.
Qed.

(** The whole-number parse path breaks the invariant as well. *)
Lemma Frac_cstr_zero (uninit : Frac) :
  Frac_cstr uninit "0" false = Ok (mkFrac 0 0 0).
Proof. reflexivity. Qed.

(** ** The gcd loop of [simplify] *)

(** Entered with [a = 0] and a positive [b], the loop takes the [else]
    branch and computes [b %= a]. *)
Lemma gcd_loop_zero_operand (fuel : nat) (b : Z) :
  0 < b -> gcd_loop (S fuel) 0 b = Err DIVIDE_FAULT.
Proof.
  intros Hb. simpl.
  destruct (Z.gtb_spec 0 b) as [H | H]; [lia |].
  reflexivity.
Qed.

(** C2, at the failing input.  Simplifying 4/2 folds the numerator to 0
    (whole becomes 2) and then enters the gcd loop with [a = 0], [b = 2];
    the first iteration evaluates [b %= a] with [a = 0]. *)
Theorem simplify_4_2_divides_by_zero :
  simplify (mkFrac 4 2 0) = (mkFrac 0 2 2, Err DIVIDE_FAULT) /\
  gcd_loop (gcd_fuel (abs 0) (abs 2)) (abs 0) (abs 2) = Err DIVIDE_FAULT /\
  irem (abs 2) (abs 0) = Err DIVIDE_FAULT.
Proof. repeat split. Qed.

(** ** Failure atomicity of the mutating operators *)

(** C3, at the failing input.  On a mixed value ([whole <> 0]) the
    increment and decrement logic first folds [whole * denominator] into
    [numerator] and only then tests for overflow, so a throw leaves
    [numerator] changed: [1 2147483646/1] becomes [1 2147483647/1] under
    [++], and [-1 -2147483647/1] becomes [-1 -2147483648/1] under [--],
    for the prefix and the postfix forms alike. *)
Theorem increment_decrement_throw_after_mutation :
  op_pre_inc (mkFrac (INT_MAX - 1) 1 1) = (mkFrac INT_MAX 1 1, Err OVERFLOW_ERROR) /\
  op_post_inc (mkFrac (INT_MAX - 1) 1 1) = (mkFrac INT_MAX 1 1, Err OVERFLOW_ERROR) /\
  op_pre_dec (mkFrac (INT_MIN + 1) 1 (-1)) = (mkFrac INT_MIN 1 (-1), Err OVERFLOW_ERROR) /\
  op_post_dec (mkFrac (INT_MIN + 1) 1 (-1)) = (mkFrac INT_MIN 1 (-1), Err OVERFLOW_ERROR).
Proof. repeat split. Qed.

Ltac run_monad :=
  unfold bind, get, modify, throw, ret, lift; simpl.

(** The sibling branch ([whole = 0]) tests first and mutates afterwards. *)
Lemma incrementLogic_whole_zero_atomic (isPrefix : bool) (a : Frac) (e : error) :
  whole a = 0 -> snd (incrementLogic isPrefix a) = Err e ->
  fst (incrementLogic isPrefix a) = a.
Proof.
  intros Hw. unfold incrementLogic. run_monad. rewrite Hw. simpl.
  destruct (willAdditionOverflow (numerator a) 1); simpl; [reflexivity |].
  destruct isPrefix; discriminate.
Qed.

Lemma decrementLogic_whole_zero_atomic (isPrefix : bool) (a : Frac) (e : error) :
  whole a = 0 -> snd (decrementLogic isPrefix a) = Err e ->
  fst (decrementLogic isPrefix a) = a.
Proof.
  intros Hw. unfold decrementLogic. run_monad. rewrite Hw. simpl.
  destruct (willAdditionOverflow (numerator a) 1); simpl; [reflexivity |].
  destruct isPrefix; discriminate.
Qed.

(** So do the eight compound assignments on [Frac] and [int] operands. *)
Lemma compound_assignment_atomic (a : Frac) (b : reference) (n : Z) (e : error) :
  (snd (op_add_assign b a) = Err e -> fst (op_add_assign b a) = a) /\
  (snd (op_add_assign_int n a) = Err e -> fst (op_add_assign_int n a) = a) /\
  (snd (op_sub_assign b a) = Err e -> fst (op_sub_assign b a) = a) /\
  (snd (op_sub_assign_int n a) = Err e -> fst (op_sub_assign_int n a) = a) /\
  (snd (op_mul_assign b a) = Err e -> fst (op_mul_assign b a) = a) /\
  (snd (op_mul_assign_int n a) = Err e -> fst (op_mul_assign_int n a) = a) /\
  (snd (op_div_assign b a) = Err e -> fst (op_div_assign b a) = a) /\
  (snd (op_div_assign_int n a) = Err e -> fst (op_div_assign_int n a) = a).
Proof.
  unfold op_add_assign, op_add_assign_int, op_sub_assign, op_sub_assign_int,
    op_mul_assign, op_mul_assign_int, op_div_assign, op_div_assign_int.
  destruct b as [| b]; cbv zeta; cbn [deref].
  all: run_monad.
  all: repeat split.
  all: repeat match goal with
         | |- context [if ?c then _ else _] => destruct c; simpl
         end.
  all: solve [reflexivity | discriminate].
Qed.

(** ** Addition of mixed fractions *)

(** [operator+] never reads [whole], and what it returns has [whole = 0]. *)
Lemma op_add_ignores_whole (a b : Frac) (w w' : Z) :
  op_add (set_whole w a) (set_whole w' b) = op_add a b.
Proof. reflexivity. Qed.

Lemma op_add_whole_zero (a b r : Frac) : op_add a b = Ok r -> whole r = 0.
Proof.
  unfold op_add.
  match goal with |- context [if ?c then _ else _] => destruct c end;
    [discriminate |].
  intros H. apply Frac_n_d_denominator in H as [-> _]. reflexivity.
Qed.

(** C4, on the code.  [Frac(1,1,4) + Frac(1,1,2)] is [6/8] with no whole
    part; simplified it is [3/4], and it formats to ["3/4"], not to
    ["2 3/4"]: the whole parts of the operands are dropped. *)
Theorem add_mixed_fractions_drops_whole :
  exists a b sum simplified,
    Frac_w_n_d 1 1 4 false = Ok a /\
    Frac_w_n_d 1 1 2 false = Ok b /\
    op_add a b = Ok sum /\
    sum = mkFrac 6 8 0 /\
    Simplify sum = Ok simplified /\
    toString simplified = "3/4"%string /\
    toString simplified <> "2 3/4"%string.
Proof.
  exists (mkFrac 1 4 1), (mkFrac 1 2 1), (mkFrac 6 8 0), (mkFrac 3 4 0).
  repeat split. discriminate.
Qed.

(** The repository's own test [Addition] expects ["3 0/2"] for
    [Frac(1,1,2) + Frac(1,1,2)]; the code gives ["4/4"]. *)
Lemma add_test_Addition :
  exists sum, op_add (mkFrac 1 2 1) (mkFrac 1 2 1) = Ok sum /\
              toString sum = "4/4"%string.
Proof. exists (mkFrac 4 4 0). split; reflexivity. Qed.

(** ** Reversed multiplication *)

(** C7, at the failing input.  [Frac(INT_MAX, 1) * 2] throws Overflow;
    [2 * Frac(INT_MAX, 1)] has no check and returns the wrapped product
    [-2/1]. *)
Theorem int_op_mul_unchecked :
  op_mul_int (mkFrac INT_MAX 1 0) 2 = Err OVERFLOW_ERROR /\
  int_op_mul 2 (mkFrac INT_MAX 1 0) = Ok (mkFrac (-2) 1 0).
Proof. split; reflexivity. Qed.

(** The two forms agree exactly where the checked one does not throw. *)
Lemma int_op_mul_agrees (a : Frac) (n : Z) :
  willMultiplicationOverflow (numerator a) n = false ->
  int_op_mul n a = op_mul_int a n.
Proof. intros H. unfold int_op_mul, op_mul_int. now rewrite H. Qed.

Lemma int_op_mul_never_overflow_error (a : Frac) (n : Z) :
  int_op_mul n a <> Err OVERFLOW_ERROR.
Proof.
  unfold int_op_mul, Frac_n_d. simpl.
  destruct (denominator a =? 0); discriminate.
Qed.

(** The reversed addition, next to it in the source, does carry the check. *)
Lemma int_op_add_checked (a : Frac) (n : Z) :
  willMultiplicationOverflow n (denominator a) = true ->
  int_op_add n a = Err OVERFLOW_ERROR.
Proof. intros H. unfold int_op_add. now rewrite H. Qed.

(** ** Parsing a whole number *)

Lemma digit_not_blank (c : ascii) : isdigit (Some c) = true -> is_blank c = false.
Proof.
  destruct c as [[] [] [] [] [] [] [] []]; simpl; intros H;
    solve [reflexivity | discriminate H].
Qed.

(** Whatever digit string is read as a whole number ends up in both
    [numerator] and [denominator]. *)
Lemma parseFromStream_whole_number (this : Frac) (l : list ascii) (num : Z)
      (isSimplifying : bool) :
  isdigit (hd_error l) = true ->
  parse_digits 0 l = ([], Ok num) ->
  parseFromStream isSimplifying (mkParse l this) =
    (mkParse [] (mkFrac num num (whole this)), Ok tt).
Proof.
  intros Hd Hp.
  destruct l as [| c rest]; [discriminate Hd |].
  change (isdigit (Some c) = true) in Hd.
  pose proof (digit_not_blank c Hd) as Hb.
  unfold parseFromStream, consumeWhitespace, isDigit, peek, parseNumber, on_object.
  unfold bind, get, modify, throw, ret, on_input.
  cbn [input object skip_blanks hd_error]. rewrite Hb.
  cbn [hd_error]. rewrite Hd. cbn [negb input object].
  rewrite Hp. reflexivity.
Qed.

Lemma Frac_cstr_whole_number (uninit : Frac) (s : string) (num : Z) :
  isdigit (hd_error (list_ascii_of_string s)) = true ->
  parse_digits 0 (list_ascii_of_string s) = ([], Ok num) ->
  Frac_cstr uninit s false = Ok (mkFrac num num 0).
Proof.
  intros Hd Hp. unfold Frac_cstr.
  now rewrite (parseFromStream_whole_number _ _ num false Hd Hp).
Qed.

(** C5, at the failing input.  The text ["25"] is parsed to
    [numerator = 25, denominator = 25], which stands for 1; it is not equal
    to [Frac(25)], the value 25/1 the claim asks for. *)
Theorem parse_whole_number_25 (uninit : Frac) :
  Frac_cstr uninit "25" false = Ok (mkFrac 25 25 0) /\
  op_eq (mkFrac 25 25 0) (Frac_int 25) = false /\
  (value (mkFrac 25 25 0) == 1)%Q /\
  ~ (value (mkFrac 25 25 0) == 25 # 1)%Q.
Proof.
  repeat split.
  intros H. vm_compute in H. discriminate H.
Qed.

(** ** Comparison by cross-multiplication *)

Lemma wrap_congr (x y k : Z) : x = y + k * 2 ^ 32 -> wrap x = wrap y.
Proof.
  intros ->. unfold wrap.
  replace (y + k * 2 ^ 32 + 2 ^ 31) with (y + 2 ^ 31 + k * 2 ^ 32) by lia.
  now rewrite Z.mod_add by lia.
Qed.

(** The wrapped cross-product is the mathematical one whenever that fits,
    even if an intermediate step left the range. *)
Lemma cross_product_exact (a b : Frac) :
  in_range (improper_numerator a * denominator b) ->
  mul (add (mul (whole a) (denominator a)) (numerator a)) (denominator b)
  = improper_numerator a * denominator b.
Proof.
  intros H. rewrite <- (wrap_id _ H). unfold mul, add, improper_numerator.
  destruct (wrap_eqm (whole a * denominator a)) as [k Hk]. rewrite Hk.
  destruct (wrap_eqm (whole a * denominator a - k * 2 ^ 32 + numerator a))
    as [k' Hk']. rewrite Hk'.
  apply wrap_congr with (k := - (k + k') * denominator b). lia.
Qed.

Section CrossMultiplication.

Variables n1 d1 n2 d2 : Z.

Lemma Qdiv_eq_cross :
  d1 <> 0 -> d2 <> 0 ->
  ((inject_Z n1 / inject_Z d1 == inject_Z n2 / inject_Z d2)%Q
   <-> n1 * d2 = n2 * d1).
Proof.
  intros H1 H2.
  destruct d1 as [| p | p]; [contradiction | |];
    (destruct d2 as [| q | q]; [contradiction | |]);
    unfold Qeq, Qdiv, Qmult, Qinv, inject_Z; simpl;
    rewrite ?Z.mul_1_r; lia.
Qed.

Lemma Qdiv_lt_cross :
  0 < d1 * d2 ->
  ((inject_Z n1 / inject_Z d1 < inject_Z n2 / inject_Z d2)%Q
   <-> n1 * d2 < n2 * d1).
Proof.
  intros H.
  destruct d1 as [| p | p]; [lia | |];
    (destruct d2 as [| q | q]; [lia | |]); try lia;
    unfold Qlt, Qdiv, Qmult, Qinv, inject_Z; simpl;
    rewrite ?Z.mul_1_r; lia.
Qed.

Lemma Qdiv_le_cross :
  0 < d1 * d2 ->
  ((inject_Z n1 / inject_Z d1 <= inject_Z n2 / inject_Z d2)%Q
   <-> n1 * d2 <= n2 * d1).
Proof.
  intros H.
  destruct d1 as [| p | p]; [lia | |];
    (destruct d2 as [| q | q]; [lia | |]); try lia;
    unfold Qle, Qdiv, Qmult, Qinv, inject_Z; simpl;
    rewrite ?Z.mul_1_r; lia.
Qed.

(** With denominators of opposite sign the cross-products compare the
    other way round. *)
Lemma Qdiv_lt_cross_opposite :
  d1 * d2 < 0 ->
  ((inject_Z n1 / inject_Z d1 < inject_Z n2 / inject_Z d2)%Q
   <-> n2 * d1 < n1 * d2).
Proof.
  intros H.
  destruct d1 as [| p | p]; [lia | |];
    (destruct d2 as [| q | q]; [lia | |]); try lia;
    unfold Qlt, Qdiv, Qmult, Qinv, inject_Z; simpl;
    rewrite ?Z.mul_1_r; lia.
Qed.

End CrossMultiplication.

(** C6, at the failing input.  [Frac(1,-2)] stands for -1/2, which is
    less than 1/2, and both cross-products (2 and -2) fit in 32 bits; yet
    [operator<] and [operator<=] answer false and [operator>] and
    [operator>=] answer true.  The operators do not even agree with one
    another: [==] calls [1/-2] equal to its simplified form [-1/2], while
    [<] puts [-1/2], and not [1/-2], below [1/2].  Such operands come out
    of the library's own arithmetic on positive denominators:
    [Frac(1,2) / Frac(-3,4)] is [4/-6], a negative value that [<] does not
    put below [Frac(0)]. *)
Theorem comparison_misorders_negative_denominator :
  Frac_n_d 1 (-2) false = Ok (mkFrac 1 (-2) 0) /\
  in_range (improper_numerator (mkFrac 1 (-2) 0) * denominator (mkFrac 1 2 0)) /\
  in_range (improper_numerator (mkFrac 1 2 0) * denominator (mkFrac 1 (-2) 0)) /\
  (value (mkFrac 1 (-2) 0) < value (mkFrac 1 2 0))%Q /\
  op_lt (mkFrac 1 (-2) 0) (mkFrac 1 2 0) = false /\
  op_le (mkFrac 1 (-2) 0) (mkFrac 1 2 0) = false /\
  op_gt (mkFrac 1 (-2) 0) (mkFrac 1 2 0) = true /\
  op_ge (mkFrac 1 (-2) 0) (mkFrac 1 2 0) = true /\
  ~ (op_lt (mkFrac 1 (-2) 0) (mkFrac 1 2 0) = true
     <-> (value (mkFrac 1 (-2) 0) < value (mkFrac 1 2 0))%Q) /\
  Simplify (mkFrac 1 (-2) 0) = Ok (mkFrac (-1) 2 0) /\
  op_eq (mkFrac 1 (-2) 0) (mkFrac (-1) 2 0) = true /\
  op_lt (mkFrac (-1) 2 0) (mkFrac 1 2 0) = true /\
  op_div (mkFrac 1 2 0) (mkFrac (-3) 4 0) = Ok (mkFrac 4 (-6) 0) /\
  (value (mkFrac 4 (-6) 0) < value (Frac_int 0))%Q /\
  op_lt (mkFrac 4 (-6) 0) (Frac_int 0) = false.
Proof.
  repeat split; try (vm_compute; congruence).
  intros [_ H].
  assert (Hlt : (value (mkFrac 1 (-2) 0) < value (mkFrac 1 2 0))%Q)
    by reflexivity.
  apply H in Hlt. vm_compute in Hlt. discriminate Hlt.
Qed.

(** What the cross-multiplication does decide.  For two values with
    non-zero denominators whose cross-products fit in 32 bits, [==] and
    [!=] decide equality of the represented rationals; when moreover the
    two denominators have the same sign, [<], [<=], [>] and [>=] decide the
    corresponding order.  Neither operand needs to be simplified. *)
Lemma comparison_exact_same_sign (a b : Frac) :
  denominator a <> 0 ->
  denominator b <> 0 ->
  in_range (improper_numerator a * denominator b) ->
  in_range (improper_numerator b * denominator a) ->
  (op_eq a b = true <-> (value a == value b)%Q) /\
  (op_ne a b = true <-> ~ (value a == value b)%Q) /\
  (0 < denominator a * denominator b ->
   (op_lt a b = true <-> (value a < value b)%Q) /\
   (op_le a b = true <-> (value a <= value b)%Q) /\
   (op_gt a b = true <-> (value b < value a)%Q) /\
   (op_ge a b = true <-> (value b <= value a)%Q)).
Proof.
  intros Ha Hb Hab Hba.
  unfold op_ne, op_eq, op_lt, op_le, op_gt, op_ge, value. cbv zeta.
  rewrite !(cross_product_exact a b Hab), !(cross_product_exact b a Hba).
  split; [| split].
  - rewrite Z.eqb_eq. symmetry. now apply Qdiv_eq_cross.
  - rewrite negb_true_iff, Z.eqb_neq.
    now rewrite Qdiv_eq_cross by assumption.
  - intros Hs.
    assert (Hs' : 0 < denominator b * denominator a) by lia.
    rewrite Z.ltb_lt, Z.leb_le, Z.gtb_lt, Z.geb_le.
    rewrite !Qdiv_lt_cross, !Qdiv_le_cross by assumption.
    repeat split; intros; assumption.
Qed.

Lemma comparison_exact_same_sign_witness :
  (denominator (mkFrac 2 4 1) <> 0 /\ denominator (mkFrac 9 6 0) <> 0 /\
   in_range (improper_numerator (mkFrac 2 4 1) * denominator (mkFrac 9 6 0)) /\
   in_range (improper_numerator (mkFrac 9 6 0) * denominator (mkFrac 2 4 1)) /\
   0 < denominator (mkFrac 2 4 1) * denominator (mkFrac 9 6 0)) /\
  (op_eq (mkFrac 2 4 1) (mkFrac 9 6 0) = true
   <-> (value (mkFrac 2 4 1) == value (mkFrac 9 6 0))%Q) /\
  (op_ne (mkFrac 2 4 1) (mkFrac 9 6 0) = true
   <-> ~ (value (mkFrac 2 4 1) == value (mkFrac 9 6 0))%Q) /\
  (op_lt (mkFrac 2 4 1) (mkFrac 9 6 0) = true
   <-> (value (mkFrac 2 4 1) < value (mkFrac 9 6 0))%Q) /\
  (op_le (mkFrac 2 4 1) (mkFrac 9 6 0) = true
   <-> (value (mkFrac 2 4 1) <= value (mkFrac 9 6 0))%Q) /\
  (op_gt (mkFrac 2 4 1) (mkFrac 9 6 0) = true
   <-> (value (mkFrac 9 6 0) < value (mkFrac 2 4 1))%Q) /\
  (op_ge (mkFrac 2 4 1) (mkFrac 9 6 0) = true
   <-> (value (mkFrac 9 6 0) <= value (mkFrac 2 4 1))%Q).
Proof.
  assert (Ha : denominator (mkFrac 2 4 1) <> 0) by (simpl; lia).
  assert (Hb : denominator (mkFrac 9 6 0) <> 0) by (simpl; lia).
  assert (Hab : in_range (improper_numerator (mkFrac 2 4 1) * denominator (mkFrac 9 6 0)))
    by (vm_compute; split; discriminate).
  assert (Hba : in_range (improper_numerator (mkFrac 9 6 0) * denominator (mkFrac 2 4 1)))
    by (vm_compute; split; discriminate).
  assert (Hs : 0 < denominator (mkFrac 2 4 1) * denominator (mkFrac 9 6 0))
    by reflexivity.
  split; [exact (conj Ha (conj Hb (conj Hab (conj Hba Hs)))) |].
  destruct (comparison_exact_same_sign (mkFrac 2 4 1) (mkFrac 9 6 0) Ha Hb Hab Hba)
    as (He & Hn & Ho).
  destruct (Ho Hs) as (Hlt & Hle & Hgt & Hge).
  repeat split; tauto.
Defined.

(** With denominators of opposite sign [<] answers for the reversed order. *)
Lemma op_lt_opposite_sign (a b : Frac) :
  in_range (improper_numerator a * denominator b) ->
  in_range (improper_numerator b * denominator a) ->
  denominator a * denominator b < 0 ->
  (op_lt a b = true <-> (value b < value a)%Q).
Proof.
  intros Hab Hba Hs. unfold op_lt, value. cbv zeta.
  rewrite (cross_product_exact a b Hab), (cross_product_exact b a Hba).
  rewrite Z.ltb_lt, Qdiv_lt_cross_opposite by lia. reflexivity.
Qed.

(** ** Termination and result of the gcd loop *)

Lemma irem_positive (a b : Z) : 0 < b -> irem a b = Ok (Z.rem a b).
Proof.
  intros Hb. unfold irem, div_faults.
  destruct (Z.eqb_spec b 0); [lia |].
  destruct (Z.eqb_spec b (-1)); [lia |].
  now rewrite andb_false_r.
Qed.

Lemma idiv_positive (a b : Z) : 0 < b -> idiv a b = Ok (Z.quot a b).
Proof.
  intros Hb. unfold idiv, div_faults.
  destruct (Z.eqb_spec b 0); [lia |].
  destruct (Z.eqb_spec b (-1)); [lia |].
  now rewrite andb_false_r.
Qed.

(** On positive operands the loop returns, within [a + b] iterations, and
    what it returns is the greatest common divisor. *)
Lemma gcd_loop_positive (fuel : nat) :
  forall a b : Z,
    0 < a -> 0 < b -> (Z.to_nat (a + b) <= fuel)%nat ->
    gcd_loop fuel a b = Ok (Z.gcd a b).
Proof.
  induction fuel as [| fuel IH]; intros a b Ha Hb Hf; [lia |].
  simpl. destruct (Z.gtb_spec a b) as [Hgt | Hle].
  - rewrite irem_positive by assumption.
    rewrite Z.rem_mod_nonneg by lia.
    pose proof (Z.mod_pos_bound a b Hb) as Hm.
    assert (Hg : Z.gcd (a mod b) b = Z.gcd a b)
      by (rewrite Z.gcd_mod by lia; apply Z.gcd_comm).
    destruct (Z.eqb_spec (a mod b) 0) as [H0 | H0].
    + rewrite <- Hg, H0. simpl. now rewrite Z.abs_eq by lia.
    + rewrite <- Hg. apply IH; lia.
  - rewrite irem_positive by assumption.
    rewrite Z.rem_mod_nonneg by lia.
    pose proof (Z.mod_pos_bound b a Ha) as Hm.
    assert (Hg : Z.gcd a (b mod a) = Z.gcd a b)
      by (rewrite Z.gcd_comm, Z.gcd_mod by lia; reflexivity).
    destruct (Z.eqb_spec (b mod a) 0) as [H0 | H0].
    + rewrite <- Hg, H0, Z.gcd_0_r. now rewrite Z.abs_eq by lia.
    + rewrite <- Hg. apply IH; lia.
Qed.

Lemma gcd_loop_fuel_enough (a b : Z) :
  0 < a -> 0 < b -> gcd_loop (gcd_fuel a b) a b = Ok (Z.gcd a b).
Proof.
  intros Ha Hb. apply gcd_loop_positive; try assumption.
  unfold gcd_fuel. rewrite !Z.abs_eq by lia. lia.
Qed.

(** With [b = abs INT_MIN = INT_MIN] and a positive [a] the loop state
    never changes: no amount of fuel makes it return. *)
Lemma gcd_loop_never_returns (fuel : nat) (a : Z) :
  0 < a -> a <= INT_MAX -> gcd_loop fuel a INT_MIN = Err LOOPS_FOREVER.
Proof.
  intros Ha Hmax. induction fuel as [| fuel IH]; [reflexivity |].
  simpl. destruct (Z.gtb_spec a INT_MIN) as [_ | H];
    [| unfold INT_MIN in H; lia].
  assert (Hf : div_faults a INT_MIN = false).
  { unfold div_faults. change (INT_MIN =? 0) with false.
    change (INT_MIN =? -1) with false. now rewrite andb_false_r. }
  unfold irem. rewrite Hf.
  assert (Hr : Z.rem a INT_MIN = a).
  { apply Z.rem_small_iff; [discriminate |].
    unfold INT_MIN, INT_MAX in *.
    change (Z.abs (- 2 ^ 31)) with (2 ^ 31). lia. }
  rewrite Hr. destruct (Z.eqb_spec a 0); [lia | exact IH].
Qed.

(** [simplify] enters the loop with [a = abs numerator >= 0] and with
    [b = abs denominator], which is positive or, for [denominator = INT_MIN],
    [INT_MIN] itself.  On all of these the fuel that [simplify] passes
    decides the outcome: more fuel gives the same answer. *)
Lemma gcd_loop_fuel_immaterial (fuel : nat) (a b : Z) :
  0 <= a <= INT_MAX -> 0 < b \/ b = INT_MIN ->
  (gcd_fuel a b <= fuel)%nat ->
  gcd_loop fuel a b = gcd_loop (gcd_fuel a b) a b.
Proof.
  intros Ha Hb Hf.
  destruct (Z.eq_dec a 0) as [-> | Ha0].
  - assert (Hpos : (0 < gcd_fuel 0 b)%nat).
    { unfold gcd_fuel. destruct Hb as [Hb | ->]; [| unfold INT_MIN]; lia. }
    destruct (gcd_fuel 0 b) as [| k]; [lia |].
    destruct fuel as [| fuel]; [lia |].
    destruct Hb as [Hb | ->].
    + now rewrite !gcd_loop_zero_operand.
    + reflexivity.
  - destruct Hb as [Hb | ->].
    + assert (Hf' : (Z.to_nat (a + b) <= fuel)%nat)
        by (unfold gcd_fuel in Hf; rewrite !Z.abs_eq in Hf by lia; exact Hf).
      rewrite (gcd_loop_positive fuel) by lia.
      now rewrite gcd_loop_fuel_enough by lia.
    + rewrite !gcd_loop_never_returns; try lia. reflexivity.
Qed.

(** ** [simplify] on positive denominators *)

Lemma rem_quot_small (a b : Z) : Z.abs a < b -> Z.rem a b = a /\ Z.quot a b = 0.
Proof.
  intros H. split.
  - apply Z.rem_small_iff; lia.
  - apply Z.quot_small_iff; lia.
Qed.

Lemma gcd_positive_r (n d : Z) : 0 < d -> 0 < Z.gcd n d.
Proof.
  intros Hd. pose proof (Z.gcd_nonneg n d).
  assert (Z.gcd n d <> 0) by (intros H0; apply Z.gcd_eq_0_r in H0; lia). lia.
Qed.

Lemma quot_gcd_positive (n d : Z) : 0 < d -> 0 < Z.quot d (Z.gcd n d).
Proof.
  intros Hd. pose proof (gcd_positive_r n d Hd) as Hg.
  destruct (Z.gcd_divide_r n d) as [k Hk].
  rewrite Hk at 1. rewrite Z.quot_mul by lia. nia.
Qed.

(** The operands [simplify] hands to the loop, and what comes back. *)
Lemma simplify_gcd_step (n d : Z) :
  in_range n -> in_range d -> 0 < d -> n <> 0 -> Z.abs n < d ->
  gcd_loop (gcd_fuel (abs n) (abs d)) (abs n) (abs d) = Ok (Z.gcd n d).
Proof.
  intros Hn Hd Hpos Hn0 Hlt.
  rewrite (abs_pos n), (abs_pos d);
    try assumption; try (unfold in_range, INT_MIN, INT_MAX in *; lia).
  rewrite (Z.abs_eq d) by lia.
  rewrite gcd_loop_fuel_enough by lia.
  now rewrite Z.gcd_abs_l.
Qed.

Lemma simplify_positive_denominator (x : Frac) :
  well_typed x -> 0 < denominator x ->
  Z.rem (numerator x) (denominator x) <> 0 ->
  let n := numerator x in
  let d := denominator x in
  let w1 := add (whole x) (Z.quot n d) in
  let r := Z.rem n d in
  let adjust := (r <? 0) && negb (w1 =? 0) in
  let n2 := if adjust then r + d else r in
  let w2 := if adjust then sub w1 1 else w1 in
  let g := Z.gcd n2 d in
  simplify x = (mkFrac (Z.quot n2 g) (Z.quot d g) w2, Ok tt).
Proof.
  intros (Hn & Hd & Hw) Hpos Hrem. cbv zeta.
  destruct x as [n d w]. simpl in *.
  assert (Hn0 : n <> 0) by (intros ->; apply Hrem; apply Z.rem_0_l; lia).
  pose proof (Z.rem_bound_abs n d ltac:(lia)) as Hrb.
  rewrite (Z.abs_eq d) in Hrb by lia.
  assert (Hr : in_range (Z.rem n d))
    by (unfold in_range, INT_MIN, INT_MAX in *; lia).
  unfold simplify. run_monad.
  destruct (Z.eqb_spec d 0) as [? | _]; [lia |].
  destruct (Z.eqb_spec n 0) as [? | _]; [lia |].
  rewrite idiv_positive, irem_positive by assumption. simpl.
  destruct ((Z.rem n d <? 0) && negb (add w (n ÷ d) =? 0)) eqn:Eadj; simpl.
  - apply andb_prop in Eadj as [Hneg _]. apply Z.ltb_lt in Hneg.
    assert (Hsum : add (Z.rem n d) (abs d) = Z.rem n d + d).
    { rewrite abs_pos by (unfold in_range, INT_MIN, INT_MAX in *; lia).
      rewrite Z.abs_eq by lia.
      apply wrap_id; unfold in_range, INT_MIN, INT_MAX in *; lia. }
    rewrite !Hsum.
    destruct (Z.gtb_spec (Z.rem n d + d) 0) as [_ | ?]; [| lia].
    rewrite simplify_gcd_step;
      try (unfold in_range, INT_MIN, INT_MAX in *; lia).
    rewrite !idiv_positive by (apply gcd_positive_r; lia). simpl.
    pose proof (quot_gcd_positive (Z.rem n d + d) d Hpos).
    destruct (Z.ltb_spec (d ÷ Z.gcd (Z.rem n d + d) d) 0); [lia | reflexivity].
  - rewrite simplify_gcd_step; try assumption; try lia.
    rewrite !idiv_positive by (apply gcd_positive_r; lia). simpl.
    pose proof (quot_gcd_positive (Z.rem n d) d Hpos).
    destruct (Z.ltb_spec (d ÷ Z.gcd (Z.rem n d) d) 0); [lia | reflexivity].
Qed.

(** A numerator that is an exact multiple of the denominator is folded to
    0, and the loop is then entered with a zero operand: the general form
    of the failure at 4/2. *)
Lemma simplify_exact_multiple_faults (x : Frac) :
  well_typed x -> 0 < denominator x -> numerator x <> 0 ->
  Z.rem (numerator x) (denominator x) = 0 ->
  snd (simplify x) = Err DIVIDE_FAULT.
Proof.
  intros (Hn & Hd & Hw) Hpos Hn0 Hrem.
  destruct x as [n d w]. simpl in *.
  unfold simplify. run_monad.
  destruct (Z.eqb_spec d 0) as [? | _]; [lia |].
  destruct (Z.eqb_spec n 0) as [? | _]; [lia |].
  rewrite idiv_positive, irem_positive by assumption. simpl.
  rewrite Hrem. simpl.
  assert (Habs : abs d = d).
  { rewrite abs_pos by (unfold in_range, INT_MIN, INT_MAX in *; lia).
    apply Z.abs_eq. lia. }
  rewrite Habs. change (abs 0) with 0.
  assert (Hfuel : exists k, gcd_fuel 0 d = S k).
  { unfold gcd_fuel. exists (Nat.pred (Z.to_nat (Z.abs 0 + Z.abs d))).
    simpl. lia. }
  destruct Hfuel as [k ->].
  now rewrite gcd_loop_zero_operand.
Qed.

(** Where the denominator is not negative, a value that [simplify] returns
    is a fixed point of [simplify]. *)
Lemma simplify_idempotent_nonnegative_denominator (x y : Frac) :
  well_typed x -> 0 <= denominator x ->
  Simplify x = Ok y -> Simplify y = Ok y.
Proof.
  intros Hwt Hd0 Hs.
  destruct (Z.eq_dec (denominator x) 0) as [Hz | Hnz].
  { (* no-op *)
    assert (Hx : simplify x = (x, Ok tt)).
    { unfold simplify. run_monad. rewrite Hz. reflexivity. }
    unfold Simplify in *. rewrite Hx in Hs. simpl in Hs.
    injection Hs as <-. now rewrite Hx. }
  assert (Hpos : 0 < denominator x) by lia.
  destruct (Z.eq_dec (numerator x) 0) as [Hn0 | Hn0].
  { assert (Hx : simplify x = (mkFrac 0 1 0, Ok tt)).
    { destruct x as [n d w]. simpl in *. subst n.
      unfold simplify. run_monad.
      destruct (Z.eqb_spec d 0); [lia | reflexivity]. }
    unfold Simplify in *. rewrite Hx in Hs. simpl in Hs.
    injection Hs as <-. reflexivity. }
  destruct (Z.eq_dec (Z.rem (numerator x) (denominator x)) 0) as [Hr0 | Hr0].
  { pose proof (simplify_exact_multiple_faults x Hwt Hpos Hn0 Hr0) as Hf.
    unfold Simplify in Hs. destruct (simplify x) as [s [u | e]];
      simpl in *; congruence. }
  pose proof (simplify_positive_denominator x Hwt Hpos Hr0) as Hx.
  cbv zeta in Hx.
  destruct Hwt as (Hn & Hd & Hw).
  set (n := numerator x) in *. set (d := denominator x) in *.
  set (w1 := add (whole x) (n ÷ d)) in *.
  set (r := Z.rem n d) in *.
  pose proof (Z.rem_bound_abs n d ltac:(lia)) as Hrb. fold r in Hrb.
  rewrite (Z.abs_eq d) in Hrb by lia.
  set (adjust := (r <? 0) && negb (w1 =? 0)) in *.
  set (n2 := if adjust then r + d else r) in *.
  set (w2 := if adjust then sub w1 1 else w1) in *.
  set (g := Z.gcd n2 d) in *.
  (* the state after the adjustment *)
  assert (Hn2 : n2 <> 0 /\ Z.abs n2 < d /\ (n2 < 0 -> w2 = 0)).
  { subst n2 w2 adjust.
    destruct (Z.ltb_spec r 0) as [Hneg | Hge]; simpl.
    - destruct (Z.eqb_spec w1 0) as [Hw0 | Hw0]; simpl; lia.
    - lia. }
  destruct Hn2 as (Hn2 & Hlt & Hsign).
  assert (Hw2 : in_range w2) by (subst w2 w1; destruct adjust; apply wrap_in_range).
  assert (Hg : 0 < g) by (apply gcd_positive_r; lia).
  destruct (Z.gcd_divide_l n2 d) as [k Hk]. fold g in Hk.
  destruct (Z.gcd_divide_r n2 d) as [k' Hk']. fold g in Hk'.
  assert (Hq : n2 ÷ g = k) by (rewrite Hk; apply Z.quot_mul; lia).
  assert (Hq' : d ÷ g = k') by (rewrite Hk' at 1; apply Z.quot_mul; lia).
  assert (Hcop : Z.gcd k k' = 1).
  { rewrite <- Hq, <- Hq'.
    rewrite Z.gcd_quot_factor;
      [apply Z.quot_same; lia | lia | apply Z.gcd_divide_l | apply Z.gcd_divide_r]. }
  rewrite Hq, Hq' in Hx.
  unfold Simplify in Hs. rewrite Hx in Hs. simpl in Hs. injection Hs as <-.
  assert (Hk0 : k <> 0) by nia.
  assert (Hkpos : 0 < k') by nia.
  assert (Hklt : Z.abs k < k') by nia.
  assert (Hwty : well_typed (mkFrac k k' w2)).
  { unfold well_typed, in_range, INT_MIN, INT_MAX in *. simpl. nia. }
  destruct (rem_quot_small k k' Hklt) as [Hrem Hquot].
  pose proof (simplify_positive_denominator (mkFrac k k' w2) Hwty Hkpos) as Hy.
  simpl in Hy. rewrite Hrem, Hquot in Hy. specialize (Hy Hk0).
  assert (Hadd : add w2 0 = w2) by (unfold add; rewrite Z.add_0_r; now apply wrap_id).
  rewrite Hadd in Hy.
  assert (Hno : (k <? 0) && negb (w2 =? 0) = false).
  { destruct (Z.ltb_spec k 0) as [Hneg | ?]; [| reflexivity].
    rewrite Hsign by nia. reflexivity. }
  rewrite Hno, Hcop, !Z.quot_1_r in Hy.
  unfold Simplify. now rewrite Hy.
Qed.

(** C8, at the failing input.  [Frac(1, 1, -2)] simplifies to
    [1 -1/2]: the sign of the denominator is moved to the numerator after
    the step that repairs a negative numerator has already run.  A second
    [simplify] runs that step on the result and yields [1/2], so the two
    results differ in [whole] and [numerator]. *)
Theorem simplify_twice_differs_negative_denominator :
  Frac_w_n_d 1 1 (-2) false = Ok (mkFrac 1 (-2) 1) /\
  Simplify (mkFrac 1 (-2) 1) = Ok (mkFrac (-1) 2 1) /\
  Simplify (mkFrac (-1) 2 1) = Ok (mkFrac 1 2 0) /\
  mkFrac (-1) 2 1 <> mkFrac 1 2 0.
Proof. repeat split. discriminate. Qed.

(* ================================================================== *)
(** * Part III: further properties of the code *)

(** ** The checks, and arithmetic under them *)

Lemma in_rangeb_false z : in_rangeb z = false <-> ~ in_range z.
Proof.
  rewrite <- in_rangeb_spec. destruct (in_rangeb z); split; intros H;
    try reflexivity; try discriminate; try (intros H'; discriminate H').
  exfalso. now apply H.
Qed.

Lemma willAdditionOverflow_in_rangeb (a b : Z) :
  in_range a -> in_range b ->
  willAdditionOverflow a b = negb (in_rangeb (a + b)).
Proof.
  intros Ha Hb. unfold willAdditionOverflow, sub, in_rangeb.
  assert (H1 : 0 < b -> wrap (INT_MAX - b) = INT_MAX - b)
    by (intros; apply wrap_id; unfold in_range, INT_MIN, INT_MAX in *; lia).
  assert (H2 : b < 0 -> wrap (INT_MIN - b) = INT_MIN - b)
    by (intros; apply wrap_id; unfold in_range, INT_MIN, INT_MAX in *; lia).
  destruct (Z.gtb_spec b 0) as [Hp | Hp];
    destruct (Z.ltb_spec b 0) as [Hn | Hn]; try lia.
  all: rewrite ?H1, ?H2 by lia.
  all: cbn [andb].
  all: destruct (Z.gtb_spec a (INT_MAX - b));
    destruct (Z.ltb_spec a (INT_MIN - b));
    destruct (Z.leb_spec INT_MIN (a + b));
    destruct (Z.leb_spec (a + b) INT_MAX); cbn [andb negb]; try reflexivity.
  all: exfalso; unfold in_range, INT_MIN, INT_MAX in *; lia.
Qed.

Lemma willSubtractionOverflow_in_rangeb (a b : Z) :
  in_range a -> in_range b ->
  willSubtractionOverflow a b = negb (in_rangeb (a - b)).
Proof.
  intros Ha Hb. unfold willSubtractionOverflow, add, in_rangeb.
  assert (H1 : b < 0 -> wrap (INT_MAX + b) = INT_MAX + b)
    by (intros; apply wrap_id; unfold in_range, INT_MIN, INT_MAX in *; lia).
  assert (H2 : 0 < b -> wrap (INT_MIN + b) = INT_MIN + b)
    by (intros; apply wrap_id; unfold in_range, INT_MIN, INT_MAX in *; lia).
  destruct (Z.gtb_spec b 0) as [Hp | Hp];
    destruct (Z.ltb_spec b 0) as [Hn | Hn]; try lia.
  all: rewrite ?H1, ?H2 by lia.
  all: cbn [andb].
  all: destruct (Z.gtb_spec a (INT_MAX + b));
    destruct (Z.ltb_spec a (INT_MIN + b));
    destruct (Z.leb_spec INT_MIN (a - b));
    destruct (Z.leb_spec (a - b) INT_MAX); cbn [andb negb]; try reflexivity.
  all: exfalso; unfold in_range, INT_MIN, INT_MAX in *; lia.
Qed.

Lemma willMultiplicationOverflow_in_rangeb (a b : Z) :
  in_range a -> in_range b ->
  willMultiplicationOverflow a b = negb (in_rangeb (a * b)).
Proof.
  intros Ha Hb.
  destruct (in_rangeb (a * b)) eqn:E; cbn [negb].
  - apply in_rangeb_spec in E.
    unfold willMultiplicationOverflow.
    destruct (Z.eqb_spec a 0) as [Ha0 | Ha0]; [reflexivity |].
    destruct (Z.eqb_spec b 0) as [Hb0 | Hb0]; [reflexivity |]. cbn [orb].
    destruct (Z.eqb_spec a (-1)) as [Ha1 | Ha1];
      destruct (Z.eqb_spec b INT_MIN) as [Hbm | Hbm]; cbn [andb];
      destruct (Z.eqb_spec b (-1)) as [Hb1 | Hb1];
      destruct (Z.eqb_spec a INT_MIN) as [Ham | Ham]; cbn [andb];
      try (exfalso; unfold in_range, INT_MIN, INT_MAX in *; nia).
    all: unfold mul; rewrite wrap_id by exact E.
    all: rewrite Z.quot_mul by assumption; now rewrite Z.eqb_refl.
  - apply in_rangeb_false in E.
    unfold willMultiplicationOverflow.
    destruct (Z.eqb_spec a 0) as [Ha0 | Ha0].
    { exfalso. apply E. subst a. unfold in_range, INT_MIN, INT_MAX. lia. }
    destruct (Z.eqb_spec b 0) as [Hb0 | Hb0].
    { exfalso. apply E. subst b. rewrite Z.mul_0_r.
      unfold in_range, INT_MIN, INT_MAX. lia. }
    cbn [orb].
    destruct ((a =? -1) && (b =? INT_MIN)); [reflexivity |].
    destruct ((b =? -1) && (a =? INT_MIN)); [reflexivity |].
    rewrite negb_true_iff, Z.eqb_neq. unfold mul. intros Hq. apply E.
    destruct (wrap_eqm (a * b)) as [k Hk].
    pose proof (wrap_in_range (a * b)) as Hw.
    pose proof (Z.quot_rem' (wrap (a * b)) b) as Hqr.
    pose proof (Z.rem_bound_abs (wrap (a * b)) b Hb0) as Hrb.
    rewrite Hq in Hqr.
    assert (k = 0) by (unfold in_range, INT_MIN, INT_MAX in *; nia).
    subst k. replace (a * b) with (wrap (a * b)) by lia. exact Hw.
Qed.

Lemma add_checked (a b : Z) :
  in_range a -> in_range b -> willAdditionOverflow a b = false ->
  add a b = a + b /\ in_range (a + b).
Proof.
  intros Ha Hb H. rewrite willAdditionOverflow_in_rangeb in H by assumption.
  apply negb_false_iff, in_rangeb_spec in H.
  split; [now apply wrap_id | assumption].
Qed.

Lemma sub_checked (a b : Z) :
  in_range a -> in_range b -> willSubtractionOverflow a b = false ->
  sub a b = a - b /\ in_range (a - b).
Proof.
  intros Ha Hb H. rewrite willSubtractionOverflow_in_rangeb in H by assumption.
  apply negb_false_iff, in_rangeb_spec in H.
  split; [now apply wrap_id | assumption].
Qed.

Lemma mul_checked (a b : Z) :
  in_range a -> in_range b -> willMultiplicationOverflow a b = false ->
  mul a b = a * b /\ in_range (a * b).
Proof.
  intros Ha Hb H. rewrite willMultiplicationOverflow_in_rangeb in H by assumption.
  apply negb_false_iff, in_rangeb_spec in H.
  split; [now apply wrap_id | assumption].
Qed.

Lemma willMultiplicationOverflow_comm (a b : Z) :
  in_range a -> in_range b ->
  willMultiplicationOverflow a b = willMultiplicationOverflow b a.
Proof.
  intros Ha Hb. rewrite !willMultiplicationOverflow_in_rangeb by assumption.
  now rewrite Z.mul_comm.
Qed.

Lemma in_range_small (z : Z) : -1 <= z <= 1 -> in_range z.
Proof. unfold in_range, INT_MIN, INT_MAX. lia. Qed.

(** X1.  For 32-bit [a] and [b], [willAdditionOverflow a b] is true exactly
    when the sum [a + b] lies outside [INT_MIN, INT_MAX]. *)
Theorem willAdditionOverflow_iff (a b : Z) :
  in_range a -> in_range b ->
  (willAdditionOverflow a b = true <-> ~ in_range (a + b)).
Proof.
  intros Ha Hb. rewrite willAdditionOverflow_in_rangeb by assumption.
  rewrite negb_true_iff. apply in_rangeb_false.
Qed.

Lemma willAdditionOverflow_iff_witness :
  (in_range INT_MAX /\ in_range 1) /\
  (willAdditionOverflow INT_MAX 1 = true <-> ~ in_range (INT_MAX + 1)).
Proof.
  assert (H1 : in_range INT_MAX) by (unfold in_range, INT_MIN, INT_MAX; lia).
  assert (H2 : in_range 1) by (unfold in_range, INT_MIN, INT_MAX; lia).
  split; [split; assumption |].
  exact (willAdditionOverflow_iff INT_MAX 1 H1 H2).
Defined.

(** X2.  For 32-bit [a] and [b], [willSubtractionOverflow a b] is true
    exactly when the difference [a - b] lies outside [INT_MIN, INT_MAX]. *)
Theorem willSubtractionOverflow_iff (a b : Z) :
  in_range a -> in_range b ->
  (willSubtractionOverflow a b = true <-> ~ in_range (a - b)).
Proof.
  intros Ha Hb. rewrite willSubtractionOverflow_in_rangeb by assumption.
  rewrite negb_true_iff. apply in_rangeb_false.
Qed.

Lemma willSubtractionOverflow_iff_witness :
  (in_range INT_MIN /\ in_range 1) /\
  (willSubtractionOverflow INT_MIN 1 = true <-> ~ in_range (INT_MIN - 1)).
Proof.
  assert (H1 : in_range INT_MIN) by (unfold in_range, INT_MIN, INT_MAX; lia).
  assert (H2 : in_range 1) by (unfold in_range, INT_MIN, INT_MAX; lia).
  split; [split; assumption |].
  exact (willSubtractionOverflow_iff INT_MIN 1 H1 H2).
Defined.

(** ** The four binary operators compute exactly *)

Section FractionArithmetic.

Variables n1 d1 n2 d2 : Z.

Lemma inject_Z_nonzero (d : Z) : d <> 0 -> ~ (inject_Z d == 0)%Q.
Proof.
  intros Hd H. apply Hd. unfold Qeq, inject_Z in H. simpl in H. lia.
Qed.

Lemma Qfrac_add :
  d1 <> 0 -> d2 <> 0 ->
  (inject_Z (n1 * d2 + n2 * d1) / inject_Z (d1 * d2)
   == inject_Z n1 / inject_Z d1 + inject_Z n2 / inject_Z d2)%Q.
Proof.
  intros H1 H2. rewrite inject_Z_plus, !inject_Z_mult.
  field. split; now apply inject_Z_nonzero.
Qed.

Lemma Qfrac_sub :
  d1 <> 0 -> d2 <> 0 ->
  (inject_Z (n1 * d2 - d1 * n2) / inject_Z (d1 * d2)
   == inject_Z n1 / inject_Z d1 - inject_Z n2 / inject_Z d2)%Q.
Proof.
  intros H1 H2. unfold Z.sub.
  rewrite inject_Z_plus, inject_Z_opp, !inject_Z_mult.
  field. split; now apply inject_Z_nonzero.
Qed.

Lemma Qfrac_mul :
  d1 <> 0 -> d2 <> 0 ->
  (inject_Z (n1 * n2) / inject_Z (d1 * d2)
   == (inject_Z n1 / inject_Z d1) * (inject_Z n2 / inject_Z d2))%Q.
Proof.
  intros H1 H2. rewrite !inject_Z_mult.
  field. split; now apply inject_Z_nonzero.
Qed.

Lemma Qfrac_div :
  d1 <> 0 -> d2 <> 0 -> n2 <> 0 ->
  (inject_Z (n1 * d2) / inject_Z (d1 * n2)
   == (inject_Z n1 / inject_Z d1) / (inject_Z n2 / inject_Z d2))%Q.
Proof.
  intros H1 H2 H3. rewrite !inject_Z_mult.
  field. repeat split; now apply inject_Z_nonzero.
Qed.

End FractionArithmetic.

(** The value of a fraction whose whole part is dropped. *)
Lemma value_set_whole_0 (f : Frac) :
  value (set_whole 0 f) = (inject_Z (numerator f) / inject_Z (denominator f))%Q.
Proof.
  unfold value, improper_numerator, set_whole.
  cbn [whole numerator denominator]. now rewrite Z.mul_0_l, Z.add_0_l.
Qed.

Lemma value_mkFrac_0 (n d : Z) :
  value (mkFrac n d 0) = (inject_Z n / inject_Z d)%Q.
Proof.
  unfold value, improper_numerator.
  cbn [whole numerator denominator]. now rewrite Z.mul_0_l, Z.add_0_l.
Qed.

Ltac split_checks H :=
  repeat match type of H with
         | (if ?c then _ else _) = _ =>
             let E := fresh "Hchk" in destruct c eqn:E; [discriminate H |]
         end;
  repeat match goal with
         | E : _ || _ = false |- _ => apply orb_false_elim in E as [? ?]
         end.

(** X3.  When [a + b] returns, the result is the exact sum of the two
    fractions [numerator/denominator]: its numerator is
    [n1 * d2 + n2 * d1] and its denominator [d1 * d2] as mathematical
    integers (nothing wrapped), and its whole part is 0. *)
Theorem op_add_exact (a b r : Frac) :
  well_typed a -> well_typed b -> op_add a b = Ok r ->
  numerator r = numerator a * denominator b + numerator b * denominator a /\
  denominator r = denominator a * denominator b /\
  whole r = 0 /\
  denominator r <> 0 /\
  (value r == value (set_whole 0 a) + value (set_whole 0 b))%Q.
Proof.
  intros (Hna & Hda & _) (Hnb & Hdb & _) H. unfold op_add in H.
  split_checks H.
  destruct (mul_checked _ _ Hna Hdb ltac:(eassumption)) as [E1 R1].
  destruct (mul_checked _ _ Hnb Hda ltac:(eassumption)) as [E2 R2].
  destruct (mul_checked _ _ Hda Hdb ltac:(eassumption)) as [E3 R3].
  rewrite E1, E2, E3 in *.
  destruct (add_checked _ _ R1 R2 ltac:(eassumption)) as [E4 R4].
  rewrite E4 in H.
  apply Frac_n_d_denominator in H as [-> Hd]. cbn [numerator denominator whole] in *.
  repeat split; try assumption.
  rewrite value_mkFrac_0, !value_set_whole_0.
  apply Qfrac_add; lia.
Qed.

Lemma op_add_exact_witness :
  (well_typed (mkFrac 1 2 0) /\ well_typed (mkFrac 1 3 7) /\
   op_add (mkFrac 1 2 0) (mkFrac 1 3 7) = Ok (mkFrac 5 6 0)) /\
  numerator (mkFrac 5 6 0) = 1 * 3 + 1 * 2 /\
  denominator (mkFrac 5 6 0) = 2 * 3 /\
  whole (mkFrac 5 6 0) = 0 /\
  denominator (mkFrac 5 6 0) <> 0 /\
  (value (mkFrac 5 6 0)
   == value (set_whole 0 (mkFrac 1 2 0)) + value (set_whole 0 (mkFrac 1 3 7)))%Q.
Proof.
  assert (Ha : well_typed (mkFrac 1 2 0))
    by (unfold well_typed, in_range, INT_MIN, INT_MAX; cbn; lia).
  assert (Hb : well_typed (mkFrac 1 3 7))
    by (unfold well_typed, in_range, INT_MIN, INT_MAX; cbn; lia).
  assert (Hr : op_add (mkFrac 1 2 0) (mkFrac 1 3 7) = Ok (mkFrac 5 6 0))
    by reflexivity.
  split; [exact (conj Ha (conj Hb Hr)) |].
  exact (op_add_exact (mkFrac 1 2 0) (mkFrac 1 3 7) (mkFrac 5 6 0) Ha Hb Hr).
Defined.

(** X4.  When [a - b] returns, the result is the exact difference:
    numerator [n1 * d2 - d1 * n2], denominator [d1 * d2], whole part 0. *)
Theorem op_sub_exact (a b r : Frac) :
  well_typed a -> well_typed b -> op_sub a b = Ok r ->
  numerator r = numerator a * denominator b - denominator a * numerator b /\
  denominator r = denominator a * denominator b /\
  whole r = 0 /\
  denominator r <> 0 /\
  (value r == value (set_whole 0 a) - value (set_whole 0 b))%Q.
Proof.
  intros (Hna & Hda & _) (Hnb & Hdb & _) H. unfold op_sub in H.
  split_checks H.
  destruct (mul_checked _ _ Hna Hdb ltac:(eassumption)) as [E1 R1].
  destruct (mul_checked _ _ Hda Hnb ltac:(eassumption)) as [E2 R2].
  destruct (mul_checked _ _ Hda Hdb ltac:(eassumption)) as [E3 R3].
  rewrite E1, E2, E3 in *.
  destruct (sub_checked _ _ R1 R2 ltac:(eassumption)) as [E4 R4].
  rewrite E4 in H.
  apply Frac_n_d_denominator in H as [-> Hd]. cbn [numerator denominator whole] in *.
  repeat split; try assumption.
  rewrite value_mkFrac_0, !value_set_whole_0.
  apply Qfrac_sub; lia.
Qed.

Lemma op_sub_exact_witness :
  (well_typed (mkFrac 1 2 0) /\ well_typed (mkFrac 1 3 7) /\
   op_sub (mkFrac 1 2 0) (mkFrac 1 3 7) = Ok (mkFrac 1 6 0)) /\
  numerator (mkFrac 1 6 0) = 1 * 3 - 2 * 1 /\
  denominator (mkFrac 1 6 0) = 2 * 3 /\
  whole (mkFrac 1 6 0) = 0 /\
  denominator (mkFrac 1 6 0) <> 0 /\
  (value (mkFrac 1 6 0)
   == value (set_whole 0 (mkFrac 1 2 0)) - value (set_whole 0 (mkFrac 1 3 7)))%Q.
Proof.
  assert (Ha : well_typed (mkFrac 1 2 0))
    by (unfold well_typed, in_range, INT_MIN, INT_MAX; cbn; lia).
  assert (Hb : well_typed (mkFrac 1 3 7))
    by (unfold well_typed, in_range, INT_MIN, INT_MAX; cbn; lia).
  assert (Hr : op_sub (mkFrac 1 2 0) (mkFrac 1 3 7) = Ok (mkFrac 1 6 0))
    by reflexivity.
  split; [exact (conj Ha (conj Hb Hr)) |].
  exact (op_sub_exact (mkFrac 1 2 0) (mkFrac 1 3 7) (mkFrac 1 6 0) Ha Hb Hr).
Defined.

(** X5.  When [a * b] returns, the result is the exact product: numerator
    [n1 * n2], denominator [d1 * d2], whole part 0. *)
Theorem op_mul_exact (a b r : Frac) :
  well_typed a -> well_typed b -> op_mul a b = Ok r ->
  numerator r = numerator a * numerator b /\
  denominator r = denominator a * denominator b /\
  whole r = 0 /\
  denominator r <> 0 /\
  (value r == value (set_whole 0 a) * value (set_whole 0 b))%Q.
Proof.
  intros (Hna & Hda & _) (Hnb & Hdb & _) H. unfold op_mul in H.
  split_checks H.
  destruct (mul_checked _ _ Hna Hnb ltac:(eassumption)) as [E1 R1].
  destruct (mul_checked _ _ Hda Hdb ltac:(eassumption)) as [E3 R3].
  rewrite E1, E3 in *.
  apply Frac_n_d_denominator in H as [-> Hd]. cbn [numerator denominator whole] in *.
  repeat split; try assumption.
  rewrite value_mkFrac_0, !value_set_whole_0.
  apply Qfrac_mul; lia.
Qed.

Lemma op_mul_exact_witness :
  (well_typed (mkFrac 3 4 1) /\ well_typed (mkFrac 5 7 2) /\
   op_mul (mkFrac 3 4 1) (mkFrac 5 7 2) = Ok (mkFrac 15 28 0)) /\
  numerator (mkFrac 15 28 0) = 3 * 5 /\
  denominator (mkFrac 15 28 0) = 4 * 7 /\
  whole (mkFrac 15 28 0) = 0 /\
  denominator (mkFrac 15 28 0) <> 0 /\
  (value (mkFrac 15 28 0)
   == value (set_whole 0 (mkFrac 3 4 1)) * value (set_whole 0 (mkFrac 5 7 2)))%Q.
Proof.
  assert (Ha : well_typed (mkFrac 3 4 1))
    by (unfold well_typed, in_range, INT_MIN, INT_MAX; cbn; lia).
  assert (Hb : well_typed (mkFrac 5 7 2))
    by (unfold well_typed, in_range, INT_MIN, INT_MAX; cbn; lia).
  assert (Hr : op_mul (mkFrac 3 4 1) (mkFrac 5 7 2) = Ok (mkFrac 15 28 0))
    by reflexivity.
  split; [exact (conj Ha (conj Hb Hr)) |].
  exact (op_mul_exact (mkFrac 3 4 1) (mkFrac 5 7 2) (mkFrac 15 28 0) Ha Hb Hr).
Defined.

(** X6.  When [a / b] returns, the result is the exact quotient of the two
    fractions: numerator [n1 * d2], denominator [d1 * n2], whole part 0;
    the divisor's numerator was not 0. *)
Theorem op_div_exact (a b r : Frac) :
  well_typed a -> well_typed b -> denominator b <> 0 -> op_div a b = Ok r ->
  numerator r = numerator a * denominator b /\
  denominator r = denominator a * numerator b /\
  whole r = 0 /\
  denominator r <> 0 /\
  numerator b <> 0 /\
  (value r == value (set_whole 0 a) / value (set_whole 0 b))%Q.
Proof.
  intros (Hna & Hda & _) (Hnb & Hdb & _) Hdb0 H. unfold op_div in H.
  split_checks H.
  destruct (mul_checked _ _ Hna Hdb ltac:(eassumption)) as [E1 R1].
  destruct (mul_checked _ _ Hda Hnb ltac:(eassumption)) as [E3 R3].
  rewrite E1, E3 in *.
  apply Frac_n_d_denominator in H as [-> Hd]. cbn [numerator denominator whole] in *.
  assert (Hnb0 : numerator b <> 0) by lia.
  repeat split; try assumption.
  rewrite value_mkFrac_0, !value_set_whole_0.
  apply Qfrac_div; lia.
Qed.

Lemma op_div_exact_witness :
  (well_typed (mkFrac 1 2 2) /\ well_typed (mkFrac 1 2 4) /\
   denominator (mkFrac 1 2 4) <> 0 /\
   op_div (mkFrac 1 2 2) (mkFrac 1 2 4) = Ok (mkFrac 2 2 0)) /\
  numerator (mkFrac 2 2 0) = 1 * 2 /\
  denominator (mkFrac 2 2 0) = 2 * 1 /\
  whole (mkFrac 2 2 0) = 0 /\
  denominator (mkFrac 2 2 0) <> 0 /\
  numerator (mkFrac 1 2 4) <> 0 /\
  (value (mkFrac 2 2 0)
   == value (set_whole 0 (mkFrac 1 2 2)) / value (set_whole 0 (mkFrac 1 2 4)))%Q.
Proof.
  assert (Ha : well_typed (mkFrac 1 2 2))
    by (unfold well_typed, in_range, INT_MIN, INT_MAX; cbn; lia).
  assert (Hb : well_typed (mkFrac 1 2 4))
    by (unfold well_typed, in_range, INT_MIN, INT_MAX; cbn; lia).
  assert (Hd : denominator (mkFrac 1 2 4) <> 0) by (cbn; lia).
  assert (Hr : op_div (mkFrac 1 2 2) (mkFrac 1 2 4) = Ok (mkFrac 2 2 0))
    by reflexivity.
  split; [exact (conj Ha (conj Hb (conj Hd Hr))) |].
  exact (op_div_exact (mkFrac 1 2 2) (mkFrac 1 2 4) (mkFrac 2 2 0) Ha Hb Hd Hr).
Defined.

(** ** Integer operands *)

Lemma willMultiplicationOverflow_1_r (x : Z) :
  in_range x -> willMultiplicationOverflow x 1 = false.
Proof.
  intros Hx. rewrite willMultiplicationOverflow_in_rangeb;
    [| assumption | apply in_range_small; lia].
  rewrite Z.mul_1_r. apply negb_false_iff. now apply in_rangeb_spec.
Qed.

Lemma mul_1_r (x : Z) : in_range x -> mul x 1 = x.
Proof. intros Hx. unfold mul. rewrite Z.mul_1_r. now apply wrap_id. Qed.

Lemma mul_comm (x y : Z) : mul x y = mul y x.
Proof. unfold mul. now rewrite Z.mul_comm. Qed.

(** X7.  For [+], [-] and [*] the overload taking an [int] returns exactly
    what the overload taking a [Frac] returns on [Frac(n)]: the same
    fraction, or the same exception. *)
Theorem int_overloads_agree (a : Frac) (n : Z) :
  well_typed a -> in_range n ->
  op_add_int a n = op_add a (Frac_int n) /\
  op_sub_int a n = op_sub a (Frac_int n) /\
  op_mul_int a n = op_mul a (Frac_int n).
Proof.
  intros (Hna & Hda & _) Hn.
  unfold op_add_int, op_add, op_sub_int, op_sub, op_mul_int, op_mul, Frac_int.
  cbn [numerator denominator whole].
  rewrite !willMultiplicationOverflow_1_r, !mul_1_r by assumption.
  rewrite (willMultiplicationOverflow_comm n (denominator a)) by assumption.
  rewrite (mul_comm n (denominator a)).
  repeat split.
  - cbn [orb]. rewrite orb_false_r.
    destruct (willMultiplicationOverflow (denominator a) n); reflexivity.
  - cbn [orb]. rewrite orb_false_r.
    destruct (willMultiplicationOverflow (denominator a) n); reflexivity.
  - now rewrite orb_false_r.
Qed.

Lemma int_overloads_agree_witness :
  (well_typed (mkFrac 3 4 0) /\ in_range 5) /\
  op_add_int (mkFrac 3 4 0) 5 = op_add (mkFrac 3 4 0) (Frac_int 5) /\
  op_sub_int (mkFrac 3 4 0) 5 = op_sub (mkFrac 3 4 0) (Frac_int 5) /\
  op_mul_int (mkFrac 3 4 0) 5 = op_mul (mkFrac 3 4 0) (Frac_int 5).
Proof.
  assert (Ha : well_typed (mkFrac 3 4 0))
    by (unfold well_typed, in_range, INT_MIN, INT_MAX; cbn; lia).
  assert (Hn : in_range 5) by (unfold in_range, INT_MIN, INT_MAX; lia).
  split; [exact (conj Ha Hn) |].
  exact (int_overloads_agree (mkFrac 3 4 0) 5 Ha Hn).
Defined.



(** X9.  [n + a] returns exactly what [a + n] returns, exception
    included. *)
Theorem int_op_add_commutes (a : Frac) (n : Z) :
  well_typed a -> in_range n -> int_op_add n a = op_add_int a n.
Proof.
  intros (Hna & Hda & _) Hn. unfold int_op_add, op_add_int.
  rewrite (willMultiplicationOverflow_comm n (denominator a)) by assumption.
  now rewrite (mul_comm n (denominator a)).
Qed.

Lemma int_op_add_commutes_witness :
  (well_typed (mkFrac 3 4 0) /\ in_range INT_MAX) /\
  int_op_add INT_MAX (mkFrac 3 4 0) = op_add_int (mkFrac 3 4 0) INT_MAX.
Proof.
  assert (Ha : well_typed (mkFrac 3 4 0))
    by (unfold well_typed, in_range, INT_MIN, INT_MAX; cbn; lia).
  assert (Hn : in_range INT_MAX) by (unfold in_range, INT_MIN, INT_MAX; lia).
  split; [exact (conj Ha Hn) |].
  exact (int_op_add_commutes (mkFrac 3 4 0) INT_MAX Ha Hn).
Defined.

(** X10.  [n - a] computes [a - n]: whenever [a - n] returns a fraction,
    [n - a] returns that same fraction, whose value is that of [a] minus
    [n]. *)
Theorem int_op_sub_subtracts_the_int (a r : Frac) (n : Z) :
  well_typed a -> in_range n -> op_sub_int a n = Ok r ->
  int_op_sub n a = Ok r /\
  (value r == value (set_whole 0 a) - inject_Z n)%Q.
Proof.
  intros (Hna & Hda & _) Hn H. unfold op_sub_int in H. unfold int_op_sub.
  split_checks H. split; [exact H |].
  destruct (mul_checked _ _ Hda Hn ltac:(eassumption)) as [E1 R1].
  rewrite E1 in *.
  destruct (sub_checked _ _ Hna R1 ltac:(eassumption)) as [E2 _].
  rewrite E2 in H.
  apply Frac_n_d_denominator in H as [-> Hd]. cbn [denominator] in Hd.
  rewrite value_mkFrac_0, value_set_whole_0.
  unfold Z.sub. rewrite inject_Z_plus, inject_Z_opp, inject_Z_mult.
  field. now apply inject_Z_nonzero.
Qed.

Lemma int_op_sub_subtracts_the_int_witness :
  (well_typed (mkFrac 1 2 0) /\ in_range 3 /\
   op_sub_int (mkFrac 1 2 0) 3 = Ok (mkFrac (-5) 2 0)) /\
  int_op_sub 3 (mkFrac 1 2 0) = Ok (mkFrac (-5) 2 0) /\
  (value (mkFrac (-5) 2 0) == value (set_whole 0 (mkFrac 1 2 0)) - inject_Z 3)%Q.
Proof.
  assert (Ha : well_typed (mkFrac 1 2 0))
    by (unfold well_typed, in_range, INT_MIN, INT_MAX; cbn; lia).
  assert (Hn : in_range 3) by (unfold in_range, INT_MIN, INT_MAX; lia).
  assert (Hr : op_sub_int (mkFrac 1 2 0) 3 = Ok (mkFrac (-5) 2 0)) by reflexivity.
  split; [exact (conj Ha (conj Hn Hr)) |].
  exact (int_op_sub_subtracts_the_int (mkFrac 1 2 0) (mkFrac (-5) 2 0) 3 Ha Hn Hr).
Defined.

(** ** Compound assignment against the non-mutating operators *)

Lemma mul_checked_nonzero (x y : Z) :
  in_range x -> in_range y -> x <> 0 -> y <> 0 ->
  willMultiplicationOverflow x y = false -> (mul x y =? 0) = false.
Proof.
  intros Hx Hy Hx0 Hy0 H. destruct (mul_checked x y Hx Hy H) as [-> _].
  apply Z.eqb_neq. nia.
Qed.

Ltac case_checks :=
  repeat match goal with
         | |- context [if ?c then _ else _] =>
             lazymatch c with
             | context [willMultiplicationOverflow] => destruct c eqn:?
             | context [willAdditionOverflow] => destruct c eqn:?
             | context [willSubtractionOverflow] => destruct c eqn:?
             end; try reflexivity
         end.

(** X11.  On operands with non-zero denominators, whether [b] is another
    object or [a] itself, [a += b], [a -= b] and [a *= b] store the
    numerator and denominator that [a + b], [a - b] and [a * b] return and
    keep [a]'s whole part; so does [a /= b] when [b] is another object,
    while [a /= a] stores the numerator of [a / a] and, as denominator, the
    32-bit product of [a]'s denominator with that new numerator (on [1/2]
    it leaves [2/4], where [a / a] is [2/2]).  Where the non-mutating
    operator throws, the compound one throws the same exception and leaves
    [a] as it was. *)
Theorem compound_assignment_matches_operator (a : Frac) (b : reference) :
  well_typed a -> well_typed (deref b a) ->
  denominator a <> 0 -> denominator (deref b a) <> 0 ->
  match op_add a (deref b a) with
  | Ok r => op_add_assign b a = (mkFrac (numerator r) (denominator r) (whole a), Ok tt)
  | Err e => op_add_assign b a = (a, Err e)
  end /\
  match op_sub a (deref b a) with
  | Ok r => op_sub_assign b a = (mkFrac (numerator r) (denominator r) (whole a), Ok tt)
  | Err e => op_sub_assign b a = (a, Err e)
  end /\
  match op_mul a (deref b a) with
  | Ok r => op_mul_assign b a = (mkFrac (numerator r) (denominator r) (whole a), Ok tt)
  | Err e => op_mul_assign b a = (a, Err e)
  end /\
  match op_div a (deref b a) with
  | Ok r =>
      op_div_assign b a =
      (mkFrac (numerator r)
              match b with
              | this_object => mul (denominator a) (numerator r)
              | other_object _ => denominator r
              end
              (whole a), Ok tt)
  | Err e => op_div_assign b a = (a, Err e)
  end.
Proof.
  intros Ha Hb Ha0 Hb0.
  unfold op_add, op_add_assign, op_sub, op_sub_assign, op_mul, op_mul_assign,
    op_div, op_div_assign, Frac_n_d.
  unfold bind, get, modify, throw. cbv beta iota zeta.
  destruct b as [| b]; cbn [deref] in *;
    destruct Ha as (Hna & Hda & _); destruct Hb as (Hnb & Hdb & _);
    cbn [deref numerator denominator whole set_numerator set_denominator].
  all: repeat split.
  all: try (destruct (Z.eqb_spec (numerator a) 0) as [Hz | Hnz];
            [reflexivity |]).
  all: try (destruct (Z.eqb_spec (numerator b) 0) as [Hz | Hnz];
            [reflexivity |]).
  all: try (destruct (Z.eqb_spec (denominator a) 0) as [? | _];
            [contradiction |]).
  all: cbn [orb]; case_checks.
  all: repeat match goal with
         | E : _ || _ = false |- _ => apply orb_false_elim in E as [? ?]
         end.
  all: now rewrite mul_checked_nonzero.
Qed.

Lemma compound_assignment_matches_operator_witness :
  (well_typed (mkFrac 1 2 5) /\ well_typed (deref this_object (mkFrac 1 2 5)) /\
   denominator (mkFrac 1 2 5) <> 0 /\
   denominator (deref this_object (mkFrac 1 2 5)) <> 0) /\
  op_add_assign this_object (mkFrac 1 2 5) = (mkFrac 4 4 5, Ok tt) /\
  op_sub_assign this_object (mkFrac 1 2 5) = (mkFrac 0 4 5, Ok tt) /\
  op_mul_assign this_object (mkFrac 1 2 5) = (mkFrac 1 4 5, Ok tt) /\
  op_div_assign this_object (mkFrac 1 2 5) = (mkFrac 2 4 5, Ok tt).
Proof.
  assert (Ha : well_typed (mkFrac 1 2 5))
    by (unfold well_typed, in_range, INT_MIN, INT_MAX; cbn; lia).
  assert (Ha0 : denominator (mkFrac 1 2 5) <> 0) by (cbn; lia).
  split; [exact (conj Ha (conj Ha (conj Ha0 Ha0))) |].
  exact (compound_assignment_matches_operator (mkFrac 1 2 5) this_object
           Ha Ha Ha0 Ha0).
Defined.

(** The same four assignments with another object, [1/3], on the right,
    and [a / a] next to [a /= a] on [1/2]. *)
Example compound_assignment_other_object :
  op_add_assign (other_object (mkFrac 1 3 0)) (mkFrac 1 2 5) = (mkFrac 5 6 5, Ok tt) /\
  op_sub_assign (other_object (mkFrac 1 3 0)) (mkFrac 1 2 5) = (mkFrac 1 6 5, Ok tt) /\
  op_mul_assign (other_object (mkFrac 1 3 0)) (mkFrac 1 2 5) = (mkFrac 1 6 5, Ok tt) /\
  op_div_assign (other_object (mkFrac 1 3 0)) (mkFrac 1 2 5) = (mkFrac 3 2 5, Ok tt) /\
  op_div (mkFrac 1 2 0) (mkFrac 1 2 0) = Ok (mkFrac 2 2 0) /\
  op_div_assign this_object (mkFrac 1 2 0) = (mkFrac 2 4 0, Ok tt).
Proof. repeat split. Qed.

(** X12.  The same for an [int] right operand and [+=], [-=], [*=]:
    each stores what [a + n], [a - n], [a * n] returns, keeps the whole
    part, and throws exactly when the non-mutating operator throws. *)
Theorem compound_assignment_int_matches_operator (a : Frac) (n : Z) :
  denominator a <> 0 ->
  match op_add_int a n with
  | Ok r => op_add_assign_int n a = (mkFrac (numerator r) (denominator r) (whole a), Ok tt)
  | Err e => op_add_assign_int n a = (a, Err e)
  end /\
  match op_sub_int a n with
  | Ok r => op_sub_assign_int n a = (mkFrac (numerator r) (denominator r) (whole a), Ok tt)
  | Err e => op_sub_assign_int n a = (a, Err e)
  end /\
  match op_mul_int a n with
  | Ok r => op_mul_assign_int n a = (mkFrac (numerator r) (denominator r) (whole a), Ok tt)
  | Err e => op_mul_assign_int n a = (a, Err e)
  end.
Proof.
  intros Ha0.
  unfold op_add_int, op_add_assign_int, op_sub_int, op_sub_assign_int,
    op_mul_int, op_mul_assign_int, Frac_n_d.
  unfold bind, get, modify, throw. cbv beta iota.
  cbn [numerator denominator whole set_numerator set_denominator].
  destruct (Z.eqb_spec (denominator a) 0) as [? | _]; [contradiction |].
  repeat split; case_checks.
Qed.

Lemma compound_assignment_int_matches_operator_witness :
  denominator (mkFrac 1 2 5) <> 0 /\
  op_add_assign_int 3 (mkFrac 1 2 5) = (mkFrac 7 2 5, Ok tt) /\
  op_sub_assign_int 3 (mkFrac 1 2 5) = (mkFrac (-5) 2 5, Ok tt) /\
  op_mul_assign_int 3 (mkFrac 1 2 5) = (mkFrac 3 2 5, Ok tt).
Proof.
  assert (Ha0 : denominator (mkFrac 1 2 5) <> 0) by (cbn; lia).
  split; [exact Ha0 |].
  exact (compound_assignment_int_matches_operator (mkFrac 1 2 5) 3 Ha0).
Defined.

(** ** Unary minus *)

Lemma neg_involutive (w : Z) : in_range w -> neg (neg w) = w.
Proof.
  intros Hw. unfold neg. destruct (wrap_eqm (- w)) as [k Hk]. rewrite Hk.
  rewrite <- (wrap_id w Hw) at 2.
  apply wrap_congr with (k := k). lia.
Qed.

Lemma neg_zero_iff (w : Z) : in_range w -> (neg w = 0 <-> w = 0).
Proof.
  intros Hw. split.
  - intros H. rewrite <- (neg_involutive w Hw), H. reflexivity.
  - intros ->. reflexivity.
Qed.

(** X13.  Negating twice gives back the original fraction, field by
    field. *)
Theorem op_neg_involutive (a r : Frac) :
  well_typed a -> op_neg a = Ok r -> op_neg r = Ok a.
Proof.
  intros (Hn & Hd & Hw) H. destruct a as [n d w].
  cbn [numerator denominator whole] in *.
  unfold op_neg in *. cbn [numerator denominator whole] in *.
  destruct (Z.eqb_spec w 0) as [-> | Hw0]; cbn [negb] in *.
  - apply Frac_n_d_denominator in H as [-> Hd0].
    cbn [numerator denominator whole] in *. cbn [Z.eqb negb].
    unfold Frac_n_d. cbn [denominator].
    destruct (Z.eqb_spec d 0); [contradiction |].
    now rewrite neg_involutive.
  - apply Frac_w_n_d_denominator in H as [-> Hd0].
    cbn [numerator denominator whole] in *.
    destruct (Z.eqb_spec (neg w) 0) as [E | _].
    { apply (proj1 (neg_zero_iff w Hw)) in E. contradiction. }
    cbn [negb]. unfold Frac_w_n_d. cbn [denominator].
    destruct (Z.eqb_spec d 0); [contradiction |].
    now rewrite neg_involutive.
Qed.

Lemma op_neg_involutive_witness :
  (well_typed (mkFrac 1 2 1) /\ op_neg (mkFrac 1 2 1) = Ok (mkFrac 1 2 (-1))) /\
  op_neg (mkFrac 1 2 (-1)) = Ok (mkFrac 1 2 1).
Proof.
  assert (Ha : well_typed (mkFrac 1 2 1))
    by (unfold well_typed, in_range, INT_MIN, INT_MAX; cbn; lia).
  assert (Hr : op_neg (mkFrac 1 2 1) = Ok (mkFrac 1 2 (-1))) by reflexivity.
  split; [exact (conj Ha Hr) |].
  exact (op_neg_involutive (mkFrac 1 2 1) (mkFrac 1 2 (-1)) Ha Hr).
Defined.

(** ** Increment and decrement *)

Lemma willAdditionOverflow_1 (n : Z) :
  in_range n -> willAdditionOverflow n 1 = (n =? INT_MAX).
Proof.
  intros Hn. rewrite willAdditionOverflow_in_rangeb;
    [| assumption | apply in_range_small; lia].
  unfold in_rangeb.
  destruct (Z.eqb_spec n INT_MAX) as [-> | Hne].
  - reflexivity.
  - destruct (Z.leb_spec INT_MIN (n + 1)); destruct (Z.leb_spec (n + 1) INT_MAX);
      try reflexivity; exfalso; unfold in_range, INT_MIN, INT_MAX in *; lia.
Qed.

Lemma willAdditionOverflow_m1 (n : Z) :
  in_range n -> willAdditionOverflow n (-1) = (n =? INT_MIN).
Proof.
  intros Hn. rewrite willAdditionOverflow_in_rangeb;
    [| assumption | apply in_range_small; lia].
  unfold in_rangeb.
  destruct (Z.eqb_spec n INT_MIN) as [-> | Hne].
  - reflexivity.
  - destruct (Z.leb_spec INT_MIN (n + -1)); destruct (Z.leb_spec (n + -1) INT_MAX);
      try reflexivity; exfalso; unfold in_range, INT_MIN, INT_MAX in *; lia.
Qed.

(** X14.  On a value without whole part, [++] throws Overflow exactly at
    [numerator = INT_MAX] and otherwise adds 1 to the numerator.  [--]
    uses the same test: it throws Overflow exactly at
    [numerator = INT_MAX] (where the decrement would fit) and otherwise
    subtracts 1 in 32-bit arithmetic, also at [INT_MIN], where nothing is
    thrown.  Neither touches [denominator] or [whole], and the prefix flag
    makes no difference. *)
Theorem increment_decrement_plain (a : Frac) (isPrefix : bool) :
  well_typed a -> whole a = 0 ->
  incrementLogic isPrefix a =
    (if numerator a =? INT_MAX then (a, Err OVERFLOW_ERROR)
     else (set_numerator (numerator a + 1) a, Ok tt)) /\
  decrementLogic isPrefix a =
    (if numerator a =? INT_MAX then (a, Err OVERFLOW_ERROR)
     else (set_numerator (sub (numerator a) 1) a, Ok tt)) /\
  (numerator a <> INT_MIN -> sub (numerator a) 1 = numerator a - 1).
Proof.
  intros (Hn & Hd & Hw) Hw0.
  unfold incrementLogic, decrementLogic.
  unfold bind, get, modify, throw, ret. cbv beta iota.
  rewrite Hw0. cbn [Z.eqb negb].
  rewrite willAdditionOverflow_1 by assumption.
  repeat split.
  - destruct (Z.eqb_spec (numerator a) INT_MAX) as [E | E]; [reflexivity |].
    assert (Hadd : add (numerator a) 1 = numerator a + 1)
      by (apply wrap_id; unfold in_range, INT_MIN, INT_MAX in *; lia).
    rewrite <- Hadd. destruct isPrefix; reflexivity.
  - destruct (Z.eqb_spec (numerator a) INT_MAX) as [E | E]; [reflexivity |].
    destruct isPrefix; reflexivity.
  - intros Hmin. apply wrap_id. unfold in_range, INT_MIN, INT_MAX in *. lia.
Qed.

Lemma increment_decrement_plain_witness :
  (well_typed (mkFrac INT_MAX 3 0) /\ whole (mkFrac INT_MAX 3 0) = 0) /\
  incrementLogic true (mkFrac INT_MAX 3 0) = (mkFrac INT_MAX 3 0, Err OVERFLOW_ERROR) /\
  decrementLogic true (mkFrac INT_MAX 3 0) = (mkFrac INT_MAX 3 0, Err OVERFLOW_ERROR).
Proof.
  assert (Ha : well_typed (mkFrac INT_MAX 3 0))
    by (unfold well_typed, in_range, INT_MIN, INT_MAX; cbn; lia).
  assert (Hw : whole (mkFrac INT_MAX 3 0) = 0) by reflexivity.
  split; [exact (conj Ha Hw) |].
  destruct (increment_decrement_plain (mkFrac INT_MAX 3 0) true Ha Hw)
    as (Hi & Hdec & _).
  split; [exact Hi | exact Hdec].
Defined.

Lemma improper_fold (a : Frac) :
  in_range (improper_numerator a) ->
  add (numerator a) (mul (whole a) (denominator a)) = improper_numerator a.
Proof.
  intros H. unfold add, mul, improper_numerator.
  rewrite Z.add_comm, wrap_add_l. now apply wrap_id.
Qed.

Lemma idiv_ok (x d : Z) :
  d <> 0 -> x <> INT_MIN -> idiv x d = Ok (Z.quot x d) /\ irem x d = Ok (Z.rem x d).
Proof.
  intros Hd Hx. unfold idiv, irem, div_faults.
  destruct (Z.eqb_spec d 0); [contradiction |].
  destruct (Z.eqb_spec x INT_MIN); [contradiction |].
  split; reflexivity.
Qed.

(** What [incrementLogic] and [decrementLogic] leave behind on a mixed
    value once the new improper numerator [m] is known. *)
Lemma remix_value (m d : Z) :
  d <> 0 ->
  (inject_Z (Z.quot m d * d + Z.rem m d) / inject_Z d == inject_Z m / inject_Z d)%Q /\
  (inject_Z (Z.quot m d * - d + - Z.rem m d) / inject_Z (- d)
   == inject_Z m / inject_Z d)%Q.
Proof.
  intros Hd. pose proof (Z.quot_rem' m d) as E. split.
  - replace (Z.quot m d * d + Z.rem m d) with m by lia. reflexivity.
  - apply Qdiv_eq_cross; lia.
Qed.

(** X15.  On a mixed value ([whole <> 0]) whose improper numerator
    [whole * denominator + numerator] fits in 32 bits and is not
    [INT_MAX], [++] returns normally, the value grows by
    [1 / denominator] (not by 1), and the denominator ends positive. *)
Theorem increment_mixed_value (a : Frac) (isPrefix : bool) :
  well_typed a -> whole a <> 0 ->
  denominator a <> 0 -> denominator a <> INT_MIN ->
  in_range (improper_numerator a) -> improper_numerator a <> INT_MAX ->
  exists r,
    incrementLogic isPrefix a = (r, Ok tt) /\
    denominator r = Z.abs (denominator a) /\
    (value r == value a + 1 / inject_Z (denominator a))%Q.
Proof.
  intros (Hn & Hd & Hw) Hw0 Hd0 Hdm HN HNmax.
  unfold incrementLogic.
  unfold bind, get, modify, throw, ret, lift. cbv beta iota.
  destruct (Z.eqb_spec (whole a) 0) as [? | _]; [contradiction |].
  cbn [negb numerator denominator whole set_numerator set_denominator set_whole].
  rewrite improper_fold by assumption.
  rewrite willAdditionOverflow_1 by assumption.
  destruct (Z.eqb_spec (improper_numerator a) INT_MAX) as [? | _]; [contradiction |].
  assert (Hadd : add (improper_numerator a) 1 = improper_numerator a + 1)
    by (apply wrap_id; unfold in_range, INT_MIN, INT_MAX in *; lia).
  assert (Hm : improper_numerator a + 1 <> INT_MIN)
    by (unfold in_range, INT_MIN, INT_MAX in *; lia).
  set (m := improper_numerator a + 1) in *.
  destruct (idiv_ok m (denominator a) Hd0 Hm) as [Eq Er].
  pose proof (Z.rem_bound_abs m (denominator a) Hd0) as Hrb.
  destruct (remix_value m (denominator a) Hd0) as [Vp Vn].
  assert (Hgoal : (inject_Z m / inject_Z (denominator a)
                   == value a + 1 / inject_Z (denominator a))%Q).
  { unfold value, m. rewrite inject_Z_plus. change (inject_Z 1) with 1%Q.
    field. now apply inject_Z_nonzero. }
  assert (Hpre : forall X : Frac -> Frac * result unit,
             (if isPrefix then X else X) = X) by (intros; now destruct isPrefix).
  rewrite Hpre. cbv beta iota.
  cbn [numerator denominator whole set_numerator set_denominator set_whole].
  rewrite Hadd, Eq, Er. cbv beta iota.
  destruct (Z.ltb_spec (denominator a) 0) as [Hneg | Hpos];
    unfold set_numerator, set_denominator, set_whole;
    cbn [numerator denominator whole].
  - assert (E1 : neg (Z.rem m (denominator a)) = - Z.rem m (denominator a))
      by (apply wrap_id; unfold in_range, INT_MIN, INT_MAX in *; lia).
    assert (E2 : neg (denominator a) = - denominator a)
      by (apply wrap_id; unfold in_range, INT_MIN, INT_MAX in *; lia).
    rewrite E1, E2. eexists. split; [reflexivity |].
    cbn [denominator]. split; [lia |].
    unfold value at 1, improper_numerator at 1.
    cbn [numerator denominator whole].
    rewrite Vn. exact Hgoal.
  - eexists. split; [reflexivity |].
    cbn [denominator]. split; [lia |].
    unfold value at 1, improper_numerator at 1.
    cbn [numerator denominator whole].
    rewrite Vp. exact Hgoal.
Qed.

Lemma increment_mixed_value_witness :
  (well_typed (mkFrac 1 2 1) /\ whole (mkFrac 1 2 1) <> 0 /\
   denominator (mkFrac 1 2 1) <> 0 /\ denominator (mkFrac 1 2 1) <> INT_MIN /\
   in_range (improper_numerator (mkFrac 1 2 1)) /\
   improper_numerator (mkFrac 1 2 1) <> INT_MAX) /\
  exists r,
    incrementLogic true (mkFrac 1 2 1) = (r, Ok tt) /\
    denominator r = Z.abs (denominator (mkFrac 1 2 1)) /\
    (value r == value (mkFrac 1 2 1) + 1 / inject_Z (denominator (mkFrac 1 2 1)))%Q.
Proof.
  assert (Ha : well_typed (mkFrac 1 2 1))
    by (unfold well_typed, in_range, INT_MIN, INT_MAX; cbn; lia).
  assert (H1 : whole (mkFrac 1 2 1) <> 0) by (cbn; lia).
  assert (H2 : denominator (mkFrac 1 2 1) <> 0) by (cbn; lia).
  assert (H3 : denominator (mkFrac 1 2 1) <> INT_MIN) by (unfold INT_MIN; cbn; lia).
  assert (H4 : in_range (improper_numerator (mkFrac 1 2 1)))
    by (unfold in_range, INT_MIN, INT_MAX, improper_numerator; cbn; lia).
  assert (H5 : improper_numerator (mkFrac 1 2 1) <> INT_MAX)
    by (unfold INT_MAX, improper_numerator; cbn; lia).
  split; [exact (conj Ha (conj H1 (conj H2 (conj H3 (conj H4 H5))))) |].
  exact (increment_mixed_value (mkFrac 1 2 1) true Ha H1 H2 H3 H4 H5).
Defined.

Lemma idiv_ok_general (x d : Z) :
  d <> 0 -> x <> INT_MIN \/ d <> -1 ->
  idiv x d = Ok (Z.quot x d) /\ irem x d = Ok (Z.rem x d).
Proof.
  intros Hd Hx. unfold idiv, irem, div_faults.
  destruct (Z.eqb_spec d 0); [contradiction |].
  destruct (Z.eqb_spec x INT_MIN); destruct (Z.eqb_spec d (-1));
    cbn [orb andb]; try (split; reflexivity).
  destruct Hx; contradiction.
Qed.

(** X16.  On a mixed value whose improper numerator fits in 32 bits and is
    not [INT_MIN], [--] returns normally (the one excluded division being
    [INT_MIN / -1]), the value shrinks by [1 / denominator], and the
    denominator ends positive. *)
Theorem decrement_mixed_value (a : Frac) (isPrefix : bool) :
  well_typed a -> whole a <> 0 ->
  denominator a <> 0 -> denominator a <> INT_MIN ->
  in_range (improper_numerator a) -> improper_numerator a <> INT_MIN ->
  improper_numerator a - 1 <> INT_MIN \/ denominator a <> -1 ->
  exists r,
    decrementLogic isPrefix a = (r, Ok tt) /\
    denominator r = Z.abs (denominator a) /\
    (value r == value a - 1 / inject_Z (denominator a))%Q.
Proof.
  intros (Hn & Hd & Hw) Hw0 Hd0 Hdm HN HNmin Hdiv.
  unfold decrementLogic.
  unfold bind, get, modify, throw, ret, lift. cbv beta iota.
  destruct (Z.eqb_spec (whole a) 0) as [? | _]; [contradiction |].
  cbn [negb numerator denominator whole set_numerator set_denominator set_whole].
  rewrite improper_fold by assumption.
  rewrite willAdditionOverflow_m1 by assumption.
  destruct (Z.eqb_spec (improper_numerator a) INT_MIN) as [? | _]; [contradiction |].
  assert (Hsub : sub (improper_numerator a) 1 = improper_numerator a - 1)
    by (apply wrap_id; unfold in_range, INT_MIN, INT_MAX in *; lia).
  set (m := improper_numerator a - 1) in *.
  destruct (idiv_ok_general m (denominator a) Hd0 Hdiv) as [Eq Er].
  pose proof (Z.rem_bound_abs m (denominator a) Hd0) as Hrb.
  destruct (remix_value m (denominator a) Hd0) as [Vp Vn].
  assert (Hgoal : (inject_Z m / inject_Z (denominator a)
                   == value a - 1 / inject_Z (denominator a))%Q).
  { unfold value, m, Z.sub. rewrite inject_Z_plus, inject_Z_opp.
    change (inject_Z 1) with 1%Q.
    field. now apply inject_Z_nonzero. }
  assert (Hpre : forall X : Frac -> Frac * result unit,
             (if isPrefix then X else X) = X) by (intros; now destruct isPrefix).
  rewrite Hpre. cbv beta iota.
  cbn [numerator denominator whole set_numerator set_denominator set_whole].
  rewrite Hsub, Eq, Er. cbv beta iota.
  destruct (Z.ltb_spec (denominator a) 0) as [Hneg | Hpos];
    unfold set_numerator, set_denominator, set_whole;
    cbn [numerator denominator whole].
  - assert (E1 : neg (Z.rem m (denominator a)) = - Z.rem m (denominator a))
      by (apply wrap_id; unfold in_range, INT_MIN, INT_MAX in *; lia).
    assert (E2 : neg (denominator a) = - denominator a)
      by (apply wrap_id; unfold in_range, INT_MIN, INT_MAX in *; lia).
    rewrite E1, E2. eexists. split; [reflexivity |].
    cbn [denominator]. split; [lia |].
    unfold value at 1, improper_numerator at 1.
    cbn [numerator denominator whole].
    rewrite Vn. exact Hgoal.
  - eexists. split; [reflexivity |].
    cbn [denominator]. split; [lia |].
    unfold value at 1, improper_numerator at 1.
    cbn [numerator denominator whole].
    rewrite Vp. exact Hgoal.
Qed.

Lemma decrement_mixed_value_witness :
  (well_typed (mkFrac 1 2 1) /\ whole (mkFrac 1 2 1) <> 0 /\
   denominator (mkFrac 1 2 1) <> 0 /\ denominator (mkFrac 1 2 1) <> INT_MIN /\
   in_range (improper_numerator (mkFrac 1 2 1)) /\
   improper_numerator (mkFrac 1 2 1) <> INT_MIN /\
   (improper_numerator (mkFrac 1 2 1) - 1 <> INT_MIN
    \/ denominator (mkFrac 1 2 1) <> -1)) /\
  exists r,
    decrementLogic true (mkFrac 1 2 1) = (r, Ok tt) /\
    denominator r = Z.abs (denominator (mkFrac 1 2 1)) /\
    (value r == value (mkFrac 1 2 1) - 1 / inject_Z (denominator (mkFrac 1 2 1)))%Q.
Proof.
  assert (Ha : well_typed (mkFrac 1 2 1))
    by (unfold well_typed, in_range, INT_MIN, INT_MAX; cbn; lia).
  assert (H1 : whole (mkFrac 1 2 1) <> 0) by (cbn; lia).
  assert (H2 : denominator (mkFrac 1 2 1) <> 0) by (cbn; lia).
  assert (H3 : denominator (mkFrac 1 2 1) <> INT_MIN) by (unfold INT_MIN; cbn; lia).
  assert (H4 : in_range (improper_numerator (mkFrac 1 2 1)))
    by (unfold in_range, INT_MIN, INT_MAX, improper_numerator; cbn; lia).
  assert (H5 : improper_numerator (mkFrac 1 2 1) <> INT_MIN)
    by (unfold INT_MIN, improper_numerator; cbn; lia).
  assert (H6 : improper_numerator (mkFrac 1 2 1) - 1 <> INT_MIN
               \/ denominator (mkFrac 1 2 1) <> -1)
    by (right; cbn; lia).
  split; [exact (conj Ha (conj H1 (conj H2 (conj H3 (conj H4 (conj H5 H6)))))) |].
  exact (decrement_mixed_value (mkFrac 1 2 1) true Ha H1 H2 H3 H4 H5 H6).
Defined.

Lemma incrementLogic_flag (isPrefix : bool) (a : Frac) :
  incrementLogic isPrefix a = incrementLogic true a.
Proof. destruct isPrefix; reflexivity. Qed.

Lemma decrementLogic_flag (isPrefix : bool) (a : Frac) :
  decrementLogic isPrefix a = decrementLogic true a.
Proof. destruct isPrefix; reflexivity. Qed.

(** The postfix and the prefix form of [++] (and of [--]) leave the
    object in the same state and fail alike; when they return, the prefix
    form returns the new state of the object and the postfix form the
    value the object had before. *)
Lemma prefix_and_postfix (a : Frac) :
  fst (op_post_inc a) = fst (op_pre_inc a) /\
  fst (op_post_dec a) = fst (op_pre_dec a) /\
  snd (op_pre_inc a) =
    match snd (incrementLogic true a) with
    | Ok _ => Ok (fst (incrementLogic true a)) | Err e => Err e end /\
  snd (op_post_inc a) =
    match snd (incrementLogic true a) with
    | Ok _ => Ok a | Err e => Err e end /\
  snd (op_pre_dec a) =
    match snd (decrementLogic true a) with
    | Ok _ => Ok (fst (decrementLogic true a)) | Err e => Err e end /\
  snd (op_post_dec a) =
    match snd (decrementLogic true a) with
    | Ok _ => Ok a | Err e => Err e end.
Proof.
  unfold op_post_inc, op_pre_inc, op_post_dec, op_pre_dec.
  unfold bind, get, ret, Frac_copy. cbv beta iota.
  rewrite (incrementLogic_flag false), (decrementLogic_flag false).
  destruct (incrementLogic true a) as [si [ui | ei]];
    destruct (decrementLogic true a) as [sd [ud | ed]];
    destruct a; cbn; repeat split; reflexivity.
Qed.

(** ** Conversions *)

(** X18.  [toImproper] moves the whole part into the numerator: when the
    improper numerator fits in 32 bits the result has whole part 0, the
    same denominator and the same value, and [operator==] finds it equal
    to the original whenever its cross-product fits. *)
Theorem toImproper_preserves_value (f : Frac) :
  in_range (improper_numerator f) -> denominator f <> 0 ->
  toImproper f = mkFrac (improper_numerator f) (denominator f) 0 /\
  (value (toImproper f) == value f)%Q /\
  (in_range (improper_numerator f * denominator f) ->
   op_eq (toImproper f) f = true).
Proof.
  intros HN Hd.
  assert (E : toImproper f = mkFrac (improper_numerator f) (denominator f) 0).
  { unfold toImproper, Frac_copy, set_whole, set_numerator.
    cbn [numerator denominator whole].
    unfold add, mul, improper_numerator in *. rewrite wrap_add_l.
    now rewrite wrap_id. }
  split; [exact E |]. rewrite E. split.
  - rewrite value_mkFrac_0. reflexivity.
  - intros Hx.
    assert (Hi : improper_numerator (mkFrac (improper_numerator f) (denominator f) 0)
                 = improper_numerator f).
    { unfold improper_numerator at 1. cbn [numerator denominator whole]. lia. }
    unfold op_eq. cbv zeta.
    rewrite (cross_product_exact f (mkFrac (improper_numerator f) (denominator f) 0))
      by (cbn [denominator]; exact Hx).
    rewrite (cross_product_exact (mkFrac (improper_numerator f) (denominator f) 0) f)
      by (rewrite Hi; exact Hx).
    rewrite Hi. cbn [denominator]. apply Z.eqb_refl.
Qed.

Lemma toImproper_preserves_value_witness :
  (in_range (improper_numerator (mkFrac 2 3 1)) /\ denominator (mkFrac 2 3 1) <> 0) /\
  toImproper (mkFrac 2 3 1) = mkFrac 5 3 0 /\
  (value (toImproper (mkFrac 2 3 1)) == value (mkFrac 2 3 1))%Q.
Proof.
  assert (H1 : in_range (improper_numerator (mkFrac 2 3 1)))
    by (unfold in_range, INT_MIN, INT_MAX, improper_numerator; cbn; lia).
  assert (H2 : denominator (mkFrac 2 3 1) <> 0) by (cbn; lia).
  split; [exact (conj H1 H2) |].
  destruct (toImproper_preserves_value (mkFrac 2 3 1) H1 H2) as (E & V & _).
  split; [exact E | exact V].
Defined.

(** X19.  [toReciprocal] throws ZeroDivisor on a zero numerator; otherwise
    it swaps numerator and denominator and drops the whole part, so on a
    fraction with non-zero denominator doing it twice gives the fraction
    back and the two values multiply to 1. *)
Theorem toReciprocal_round_trip (f : Frac) :
  (numerator f = 0 -> toReciprocal f = Err ZERO_DIVISOR_ERROR) /\
  (numerator f <> 0 -> denominator f <> 0 ->
   exists r, toReciprocal f = Ok r /\
             r = mkFrac (denominator f) (numerator f) 0 /\
             toReciprocal r = Ok (set_whole 0 f) /\
             (value r * value (set_whole 0 f) == 1)%Q).
Proof.
  split.
  - intros E. unfold toReciprocal. now rewrite E.
  - intros Hn Hd. exists (mkFrac (denominator f) (numerator f) 0).
    unfold toReciprocal, Frac_n_d. cbn [numerator denominator].
    destruct (Z.eqb_spec (numerator f) 0); [contradiction |].
    destruct (Z.eqb_spec (denominator f) 0); [contradiction |].
    repeat split.
    rewrite value_mkFrac_0, value_set_whole_0.
    field. split; now apply inject_Z_nonzero.
Qed.

Lemma toReciprocal_round_trip_witness :
  (numerator (mkFrac 3 4 2) <> 0 /\ denominator (mkFrac 3 4 2) <> 0) /\
  exists r, toReciprocal (mkFrac 3 4 2) = Ok r /\
            r = mkFrac 4 3 0 /\
            toReciprocal r = Ok (mkFrac 3 4 0) /\
            (value r * value (mkFrac 3 4 0) == 1)%Q.
Proof.
  assert (H1 : numerator (mkFrac 3 4 2) <> 0) by (cbn; lia).
  assert (H2 : denominator (mkFrac 3 4 2) <> 0) by (cbn; lia).
  split; [exact (conj H1 H2) |].
  exact (proj2 (toReciprocal_round_trip (mkFrac 3 4 2)) H1 H2).
Defined.



(** ** The comparison operators among themselves *)

(** X21.  The six comparison operators always agree with one another,
    whatever the operands: [!=] is the negation of [==], [<=] is
    [<] or [==], [>=] is the negation of [<], [>] the negation of [<=];
    swapping the operands turns [<] into [>] and leaves [==] unchanged;
    and every value is [==] to itself. *)
Theorem comparison_operators_consistent (a b : Frac) :
  op_ne a b = negb (op_eq a b) /\
  op_le a b = op_lt a b || op_eq a b /\
  op_ge a b = negb (op_lt a b) /\
  op_gt a b = negb (op_le a b) /\
  op_lt a b = op_gt b a /\
  op_le a b = op_ge b a /\
  op_eq a b = op_eq b a /\
  op_eq a a = true.
Proof.
  unfold op_ne, op_eq, op_lt, op_le, op_gt, op_ge. cbv zeta.
  set (x := mul (add (mul (whole a) (denominator a)) (numerator a)) (denominator b)).
  set (y := mul (add (mul (whole b) (denominator b)) (numerator b)) (denominator a)).
  repeat split.
  - destruct (Z.leb_spec x y), (Z.ltb_spec x y), (Z.eqb_spec x y);
      cbn; try reflexivity; lia.
  - destruct (Z.geb_spec x y), (Z.ltb_spec x y); cbn; try reflexivity; lia.
  - destruct (Z.gtb_spec x y), (Z.leb_spec x y); cbn; try reflexivity; lia.
  - destruct (Z.ltb_spec x y), (Z.gtb_spec y x); try reflexivity; lia.
  - destruct (Z.leb_spec x y), (Z.geb_spec y x); try reflexivity; lia.
  - apply Z.eqb_sym.
  - apply Z.eqb_refl.
Qed.

(** ** What [simplify] returns *)

(** The result of [simplify] on a positive denominator that does not divide
    the numerator, with the two cofactors of the gcd made explicit. *)
Lemma simplify_result_shape (x : Frac) :
  well_typed x -> 0 < denominator x ->
  Z.rem (numerator x) (denominator x) <> 0 ->
  exists n2 w2 g k k',
    simplify x = (mkFrac k k' w2, Ok tt) /\
    0 < g /\ n2 = k * g /\ denominator x = k' * g /\ Z.gcd k k' = 1 /\
    n2 <> 0 /\ Z.abs n2 < denominator x /\ (n2 < 0 -> w2 = 0) /\
    in_range w2 /\
    (in_range (whole x + Z.quot (numerator x) (denominator x)) ->
     in_range (whole x + Z.quot (numerator x) (denominator x) - 1) ->
     w2 * denominator x + n2 = improper_numerator x).
Proof.
  intros Hwt Hpos Hr0.
  pose proof (simplify_positive_denominator x Hwt Hpos Hr0) as Hx.
  cbv zeta in Hx.
  destruct Hwt as (Hn & Hd & Hw).
  set (n := numerator x) in *. set (d := denominator x) in *.
  set (w1 := add (whole x) (n ÷ d)) in *.
  set (r := Z.rem n d) in *.
  pose proof (Z.rem_bound_abs n d ltac:(lia)) as Hrb. fold r in Hrb.
  rewrite (Z.abs_eq d) in Hrb by lia.
  pose proof (Z.quot_rem' n d) as Hqr. fold r in Hqr.
  set (adjust := (r <? 0) && negb (w1 =? 0)) in *.
  set (n2 := if adjust then r + d else r) in *.
  set (w2 := if adjust then sub w1 1 else w1) in *.
  set (g := Z.gcd n2 d) in *.
  assert (Hg : 0 < g) by (apply gcd_positive_r; lia).
  destruct (Z.gcd_divide_l n2 d) as [k Hk]. fold g in Hk.
  destruct (Z.gcd_divide_r n2 d) as [k' Hk']. fold g in Hk'.
  assert (Hq : n2 ÷ g = k) by (rewrite Hk; apply Z.quot_mul; lia).
  assert (Hq' : d ÷ g = k') by (rewrite Hk' at 1; apply Z.quot_mul; lia).
  assert (Hcop : Z.gcd k k' = 1).
  { rewrite <- Hq, <- Hq'.
    rewrite Z.gcd_quot_factor;
      [apply Z.quot_same; lia | lia | apply Z.gcd_divide_l | apply Z.gcd_divide_r]. }
  rewrite Hq, Hq' in Hx.
  exists n2, w2, g, k, k'.
  split; [exact Hx |]. split; [exact Hg |]. split; [exact Hk |].
  split; [exact Hk' |]. split; [exact Hcop |].
  assert (Hshape : n2 <> 0 /\ Z.abs n2 < d /\ (n2 < 0 -> w2 = 0)).
  { subst n2 w2 adjust.
    destruct (Z.ltb_spec r 0) as [Hneg | Hge]; cbn [andb].
    - destruct (Z.eqb_spec w1 0) as [Hw0 | Hw0]; cbn [negb]; lia.
    - lia. }
  destruct Hshape as (S1 & S2 & S3).
  split; [exact S1 |]. split; [exact S2 |]. split; [exact S3 |].
  split; [subst w2 w1; destruct adjust; apply wrap_in_range |].
  intros R1 R2.
  assert (Ew1 : w1 = whole x + n ÷ d) by (subst w1; now apply wrap_id).
  unfold improper_numerator. fold n d.
  subst n2 w2. destruct adjust.
  - assert (Es : sub w1 1 = w1 - 1)
      by (unfold sub; apply wrap_id; rewrite Ew1; exact R2).
    rewrite Es, Ew1. nia.
  - rewrite Ew1. nia.
Qed.

(** X22.  On a positive denominator that does not divide the numerator,
    [Frac::Simplify] returns, and what it returns is in lowest terms and
    proper: the denominator is positive, numerator and denominator are
    coprime, the numerator is non-zero and smaller in magnitude than the
    denominator, and a negative numerator occurs only with whole part
    0. *)
Theorem Simplify_lowest_terms (x : Frac) :
  well_typed x -> 0 < denominator x ->
  Z.rem (numerator x) (denominator x) <> 0 ->
  exists y,
    Simplify x = Ok y /\
    0 < denominator y /\
    Z.gcd (numerator y) (denominator y) = 1 /\
    0 < Z.abs (numerator y) < denominator y /\
    (numerator y < 0 -> whole y = 0) /\
    well_typed y.
Proof.
  intros Hwt Hpos Hr0.
  destruct (simplify_result_shape x Hwt Hpos Hr0)
    as (n2 & w2 & g & k & k' & Hx & Hg & Hk & Hk' & Hcop & S1 & S2 & S3 & S4 & _).
  destruct Hwt as (Hn & Hd & Hw).
  exists (mkFrac k k' w2). unfold Simplify. rewrite Hx.
  cbn [constructed numerator denominator whole].
  assert (Hk0 : k <> 0) by nia.
  assert (Hkpos : 0 < k') by nia.
  assert (Hklt : Z.abs k < k') by nia.
  split; [reflexivity |]. split; [exact Hkpos |]. split; [exact Hcop |].
  split; [lia |]. split; [intros Hneg; apply S3; nia |].
  unfold well_typed, in_range, INT_MIN, INT_MAX in *.
  cbn [numerator denominator whole]. nia.
Qed.

Lemma Simplify_lowest_terms_witness :
  (well_typed (mkFrac 6 8 0) /\ 0 < denominator (mkFrac 6 8 0) /\
   Z.rem (numerator (mkFrac 6 8 0)) (denominator (mkFrac 6 8 0)) <> 0) /\
  exists y,
    Simplify (mkFrac 6 8 0) = Ok y /\
    0 < denominator y /\
    Z.gcd (numerator y) (denominator y) = 1 /\
    0 < Z.abs (numerator y) < denominator y /\
    (numerator y < 0 -> whole y = 0) /\
    well_typed y.
Proof.
  assert (Ha : well_typed (mkFrac 6 8 0))
    by (unfold well_typed, in_range, INT_MIN, INT_MAX; cbn; lia).
  assert (H1 : 0 < denominator (mkFrac 6 8 0)) by (cbn; lia).
  assert (H2 : Z.rem (numerator (mkFrac 6 8 0)) (denominator (mkFrac 6 8 0)) <> 0)
    by (cbn; lia).
  split; [exact (conj Ha (conj H1 H2)) |].
  exact (Simplify_lowest_terms (mkFrac 6 8 0) Ha H1 H2).
Defined.

(** X23.  Under the same conditions, and when the new whole part
    [whole + numerator / denominator] (and that minus 1) fits in 32 bits,
    [Frac::Simplify] does not change the value. *)
Theorem Simplify_preserves_value (x : Frac) :
  well_typed x -> 0 < denominator x ->
  Z.rem (numerator x) (denominator x) <> 0 ->
  in_range (whole x + Z.quot (numerator x) (denominator x)) ->
  in_range (whole x + Z.quot (numerator x) (denominator x) - 1) ->
  exists y, Simplify x = Ok y /\ (value y == value x)%Q.
Proof.
  intros Hwt Hpos Hr0 R1 R2.
  destruct (simplify_result_shape x Hwt Hpos Hr0)
    as (n2 & w2 & g & k & k' & Hx & Hg & Hk & Hk' & Hcop & S1 & S2 & S3 & S4 & Hv).
  specialize (Hv R1 R2).
  exists (mkFrac k k' w2). unfold Simplify. rewrite Hx.
  cbn [constructed]. split; [reflexivity |].
  assert (Hkpos : 0 < k') by nia.
  unfold value. apply Qdiv_eq_cross; cbn [denominator]; try lia.
  unfold improper_numerator at 1. cbn [numerator denominator whole].
  rewrite <- Hv. rewrite Hk' at 1. rewrite Hk. rewrite Hk' at 1. ring.
Qed.

Lemma Simplify_preserves_value_witness :
  (well_typed (mkFrac (-7) 4 2) /\ 0 < denominator (mkFrac (-7) 4 2) /\
   Z.rem (numerator (mkFrac (-7) 4 2)) (denominator (mkFrac (-7) 4 2)) <> 0 /\
   in_range (whole (mkFrac (-7) 4 2)
             + Z.quot (numerator (mkFrac (-7) 4 2)) (denominator (mkFrac (-7) 4 2))) /\
   in_range (whole (mkFrac (-7) 4 2)
             + Z.quot (numerator (mkFrac (-7) 4 2)) (denominator (mkFrac (-7) 4 2)) - 1)) /\
  exists y, Simplify (mkFrac (-7) 4 2) = Ok y /\ (value y == value (mkFrac (-7) 4 2))%Q.
Proof.
  assert (Ha : well_typed (mkFrac (-7) 4 2))
    by (unfold well_typed, in_range, INT_MIN, INT_MAX; cbn; lia).
  assert (H1 : 0 < denominator (mkFrac (-7) 4 2)) by (cbn; lia).
  assert (H2 : Z.rem (numerator (mkFrac (-7) 4 2)) (denominator (mkFrac (-7) 4 2)) <> 0)
    by (cbn; lia).
  assert (H3 : in_range (whole (mkFrac (-7) 4 2)
             + Z.quot (numerator (mkFrac (-7) 4 2)) (denominator (mkFrac (-7) 4 2))))
    by (unfold in_range, INT_MIN, INT_MAX; cbn; lia).
  assert (H4 : in_range (whole (mkFrac (-7) 4 2)
             + Z.quot (numerator (mkFrac (-7) 4 2)) (denominator (mkFrac (-7) 4 2)) - 1))
    by (unfold in_range, INT_MIN, INT_MAX; cbn; lia).
  split; [exact (conj Ha (conj H1 (conj H2 (conj H3 H4)))) |].
  exact (Simplify_preserves_value (mkFrac (-7) 4 2) Ha H1 H2 H3 H4).
Defined.

(** X24.  A simplifying constructor call on a non-zero numerator that is
    an exact multiple of a positive denominator -- every non-zero integer
    [Frac(k, 1, true)] among them -- does not return a value: [simplify]
    divides by zero in its loop. *)
Theorem Frac_simplifying_integer_faults (n d : Z) :
  in_range n -> in_range d -> 0 < d -> n <> 0 -> Z.rem n d = 0 ->
  Frac_n_d n d true = Err DIVIDE_FAULT /\
  Simplify (mkFrac n d 0) = Err DIVIDE_FAULT.
Proof.
  intros Hn Hd Hpos Hn0 Hrem.
  assert (Hwt : well_typed (mkFrac n d 0)).
  { unfold well_typed. cbn [numerator denominator whole].
    split; [assumption | split; [assumption | apply in_range_small; lia]]. }
  pose proof (simplify_exact_multiple_faults (mkFrac n d 0) Hwt Hpos Hn0 Hrem) as Hf.
  assert (Hs : Simplify (mkFrac n d 0) = Err DIVIDE_FAULT).
  { unfold Simplify. destruct (simplify (mkFrac n d 0)) as [s [u | e]];
      cbn [snd constructed] in *; congruence. }
  split; [| exact Hs].
  unfold Frac_n_d. cbn [denominator].
  destruct (Z.eqb_spec d 0); [lia |]. exact Hs.
Qed.

Lemma Frac_simplifying_integer_faults_witness :
  (in_range 3 /\ in_range 1 /\ 0 < 1 /\ 3 <> 0 /\ Z.rem 3 1 = 0) /\
  Frac_n_d 3 1 true = Err DIVIDE_FAULT /\
  Simplify (mkFrac 3 1 0) = Err DIVIDE_FAULT.
Proof.
  assert (H1 : in_range 3) by (unfold in_range, INT_MIN, INT_MAX; lia).
  assert (H2 : in_range 1) by (unfold in_range, INT_MIN, INT_MAX; lia).
  assert (H3 : 0 < 1) by lia.
  assert (H4 : 3 <> 0) by lia.
  assert (H5 : Z.rem 3 1 = 0) by reflexivity.
  split; [exact (conj H1 (conj H2 (conj H3 (conj H4 H5)))) |].
  exact (Frac_simplifying_integer_faults 3 1 H1 H2 H3 H4 H5).
Defined.

(** X25.  [simplify] sends every fraction with numerator 0 and non-zero
    denominator to [0/1] with whole part 0, whatever the whole part was:
    a mixed value such as [2 0/2] loses its value. *)
Theorem Simplify_zero_numerator (x : Frac) :
  numerator x = 0 -> denominator x <> 0 ->
  Simplify x = Ok (mkFrac 0 1 0) /\
  (value x == inject_Z (whole x))%Q /\
  (value (mkFrac 0 1 0) == 0)%Q.
Proof.
  intros Hn Hd. destruct x as [n d w]. cbn [numerator denominator whole] in *.
  subst n. repeat split.
  - unfold Simplify, simplify, bind, get, modify, ret. cbv beta iota.
    cbn [numerator denominator whole].
    destruct (Z.eqb_spec d 0); [contradiction | reflexivity].
  - unfold value, improper_numerator. cbn [numerator denominator whole].
    rewrite Z.add_0_r, inject_Z_mult. field. now apply inject_Z_nonzero.
Qed.

Lemma Simplify_zero_numerator_witness :
  (numerator (mkFrac 0 2 2) = 0 /\ denominator (mkFrac 0 2 2) <> 0) /\
  Simplify (mkFrac 0 2 2) = Ok (mkFrac 0 1 0) /\
  (value (mkFrac 0 2 2) == inject_Z (whole (mkFrac 0 2 2)))%Q /\
  (value (mkFrac 0 1 0) == 0)%Q.
Proof.
  assert (H1 : numerator (mkFrac 0 2 2) = 0) by reflexivity.
  assert (H2 : denominator (mkFrac 0 2 2) <> 0) by (cbn; lia).
  split; [exact (conj H1 H2) |].
  exact (Simplify_zero_numerator (mkFrac 0 2 2) H1 H2).
Defined.

(** X17.  On a non-negative denominator, whatever [Frac::Simplify]
    returns is a fixed point: simplifying it again returns the same three
    fields, and the in-place [SimplifyFrac] leaves such an object
    unchanged. *)
Theorem Simplify_idempotent (x y : Frac) :
  well_typed x -> 0 <= denominator x -> Simplify x = Ok y ->
  Simplify y = Ok y /\ SimplifyFrac y = (y, Ok tt).
Proof.
  intros Hwt Hd Hs.
  pose proof (simplify_idempotent_nonnegative_denominator x y Hwt Hd Hs) as Hy.
  split; [exact Hy |].
  unfold Simplify, SimplifyFrac in *.
  destruct (simplify y) as [s [[] | e]]; cbn [constructed] in Hy;
    [congruence | discriminate Hy].
Qed.

Lemma Simplify_idempotent_witness :
  (well_typed (mkFrac 6 8 0) /\ 0 <= denominator (mkFrac 6 8 0) /\
   Simplify (mkFrac 6 8 0) = Ok (mkFrac 3 4 0)) /\
  Simplify (mkFrac 3 4 0) = Ok (mkFrac 3 4 0) /\
  SimplifyFrac (mkFrac 3 4 0) = (mkFrac 3 4 0, Ok tt).
Proof.
  assert (Ha : well_typed (mkFrac 6 8 0))
    by (unfold well_typed, in_range, INT_MIN, INT_MAX; cbn; lia).
  assert (H1 : 0 <= denominator (mkFrac 6 8 0)) by (cbn; lia).
  assert (H2 : Simplify (mkFrac 6 8 0) = Ok (mkFrac 3 4 0)) by reflexivity.
  split; [exact (conj Ha (conj H1 H2)) |].
  exact (Simplify_idempotent (mkFrac 6 8 0) (mkFrac 3 4 0) Ha H1 H2).
Defined.

(** ** Parsing what [toString] prints *)

Lemma list_ascii_of_string_app (s t : string) :
  list_ascii_of_string (s ++ t) = list_ascii_of_string s ++ list_ascii_of_string t.
Proof. induction s as [| c s IH]; cbn; [reflexivity | now rewrite IH]. Qed.

Lemma of_uint_acc_ge (u : Decimal.uint) :
  forall acc : positive, (acc <= Pos.of_uint_acc u acc)%positive.
Proof.
  induction u; intros acc; cbn [Pos.of_uint_acc];
    try (etransitivity; [| apply IHu]); lia.
Qed.

(** One turn of the loop of [parseNumber] on the digit [ch] of value [v]. *)
Ltac read_digit IH ch v :=
  cbn [parse_digits]; change (isdigit (Some ch)) with true; cbv iota;
  change (char_code ch - 48) with v;
  match goal with
  | Hmax : Z.pos (Pos.of_uint_acc ?u ?next) <= INT_MAX
    |- context [parse_digits (?t * 10 + v)] =>
      pose proof (of_uint_acc_ge u next);
      replace (t * 10 + v) with (Z.pos next) by lia;
      let Hr := fresh "Hr" in
      assert (Hr : in_rangeb (Z.pos next) = true)
        by (apply in_rangeb_spec; unfold in_range, INT_MIN, INT_MAX in *; lia);
      rewrite Hr; now apply IH
  end.

(** The digits of [u] read into a non-zero accumulator. *)
Lemma parse_digits_acc (u : Decimal.uint) :
  forall (acc : positive) (rest : list ascii),
    isdigit (hd_error rest) = false ->
    Z.pos (Pos.of_uint_acc u acc) <= INT_MAX ->
    parse_digits (Z.pos acc)
      (list_ascii_of_string (NilEmpty.string_of_uint u) ++ rest)
    = (rest, Ok (Z.pos (Pos.of_uint_acc u acc))).
Proof.
  induction u; intros acc rest Hrest Hmax;
    cbn [NilEmpty.string_of_uint list_ascii_of_string app Pos.of_uint_acc] in *.
  - destruct rest as [| c rest]; [reflexivity |].
    cbn [hd_error] in Hrest. cbn [parse_digits]. now rewrite Hrest.
  - read_digit IHu "0"%char 0.
  - read_digit IHu "1"%char 1.
  - read_digit IHu "2"%char 2.
  - read_digit IHu "3"%char 3.
  - read_digit IHu "4"%char 4.
  - read_digit IHu "5"%char 5.
  - read_digit IHu "6"%char 6.
  - read_digit IHu "7"%char 7.
  - read_digit IHu "8"%char 8.
  - read_digit IHu "9"%char 9.
Qed.

(** The first digit of a number: the accumulator starts at 0. *)
Ltac first_digit ch v :=
  cbn [parse_digits]; change (isdigit (Some ch)) with true; cbv iota;
  change (0 * 10 + (char_code ch - 48)) with v;
  change (in_rangeb v) with true; cbv iota;
  apply parse_digits_acc; assumption.

Lemma parse_digits_uint (u : Decimal.uint) :
  forall rest : list ascii,
    isdigit (hd_error rest) = false ->
    Z.of_N (Pos.of_uint u) <= INT_MAX ->
    parse_digits 0 (list_ascii_of_string (NilEmpty.string_of_uint u) ++ rest)
    = (rest, Ok (Z.of_N (Pos.of_uint u))).
Proof.
  induction u; intros rest Hrest Hmax;
    cbn [NilEmpty.string_of_uint list_ascii_of_string app Pos.of_uint Z.of_N] in *.
  - destruct rest as [| c rest]; [reflexivity |].
    cbn [hd_error] in Hrest. cbn [parse_digits]. now rewrite Hrest.
  - cbn [parse_digits]. change (isdigit (Some "0"%char)) with true. cbv iota.
    change (0 * 10 + (char_code "0" - 48)) with 0.
    change (in_rangeb 0) with true. cbv iota. now apply IHu.
  - first_digit "1"%char 1.
  - first_digit "2"%char 2.
  - first_digit "3"%char 3.
  - first_digit "4"%char 4.
  - first_digit "5"%char 5.
  - first_digit "6"%char 6.
  - first_digit "7"%char 7.
  - first_digit "8"%char 8.
  - first_digit "9"%char 9.
Qed.

Lemma uint_starts_with_digit (u : Decimal.uint) (rest : list ascii) :
  u <> Decimal.Nil ->
  isdigit (hd_error (list_ascii_of_string (NilEmpty.string_of_uint u) ++ rest)) = true.
Proof. destruct u; intros H; [contradiction | reflexivity ..]. Qed.

(** The text [std::to_string] gives for a non-negative [int], as a
    digit string of known value. *)
Lemma to_string_nonneg (n : Z) :
  0 <= n ->
  exists u, to_string n = NilEmpty.string_of_uint u /\
            u <> Decimal.Nil /\ Z.of_N (Pos.of_uint u) = n.
Proof.
  intros Hn. destruct n as [| p | p]; [| | lia].
  - exists (Decimal.D0 Decimal.Nil). repeat split. discriminate.
  - exists (Pos.to_uint p). unfold to_string. cbn [Z.to_int NilZero.string_of_int].
    pose proof (DecimalPos.Unsigned.to_uint_nonnil p) as Hnn.
    split; [| split; [exact Hnn | now rewrite DecimalPos.Unsigned.of_to]].
    unfold NilZero.string_of_uint. destruct (Pos.to_uint p); [contradiction | reflexivity ..].
Qed.

Lemma parse_digits_to_string (n : Z) (rest : list ascii) :
  0 <= n <= INT_MAX -> isdigit (hd_error rest) = false ->
  parse_digits 0 (list_ascii_of_string (to_string n) ++ rest) = (rest, Ok n) /\
  isdigit (hd_error (list_ascii_of_string (to_string n) ++ rest)) = true.
Proof.
  intros Hn Hrest. destruct (to_string_nonneg n ltac:(lia)) as (u & -> & Hnn & Hv).
  split.
  - rewrite <- Hv. apply parse_digits_uint; [assumption | lia].
  - now apply uint_starts_with_digit.
Qed.

Lemma skip_blanks_digit (l : list ascii) :
  isdigit (hd_error l) = true -> skip_blanks l = l.
Proof.
  destruct l as [| c l]; [discriminate |]. cbn [hd_error skip_blanks].
  intros H. now rewrite (digit_not_blank c H).
Qed.

Ltac parse_unfold :=
  unfold parseFromStream, consumeWhitespace, isDigit, peek, parseNumber,
    on_object, get_char;
  unfold bind, get, modify, throw, ret, on_input;
  cbv beta iota; cbn [input object].

Ltac parse_step := cbv beta iota; cbn [input object negb hd_error tl].

(** X26.  Printing and parsing are inverse on fractions without whole part
    that have a non-negative numerator and a positive denominator:
    [Frac(toString(f))] is [f], field by field. *)
Theorem parse_toString_round_trip (uninit : Frac) (n d : Z) :
  0 <= n <= INT_MAX -> 0 < d <= INT_MAX ->
  Frac_cstr uninit (toString (mkFrac n d 0)) false = Ok (mkFrac n d 0).
Proof.
  intros Hn Hd.
  unfold toString. cbn [whole numerator denominator Z.eqb negb].
  unfold Frac_cstr. rewrite !list_ascii_of_string_app.
  cbn [list_ascii_of_string app].
  set (Ld := list_ascii_of_string (to_string d)).
  set (Ln := list_ascii_of_string (to_string n)).
  destruct (parse_digits_to_string n ("/"%char :: Ld) Hn eq_refl) as [Pn Dn].
  destruct (parse_digits_to_string d [] ltac:(lia) eq_refl) as [Pd Dd].
  fold Ln in Pn, Dn. fold Ld in Pd, Dd. rewrite app_nil_r in Pd, Dd.
  parse_unfold.
  rewrite (skip_blanks_digit _ Dn), Dn. parse_step.
  rewrite Pn. parse_step.
  change (("/" =? " ")%char) with false. change (("/" =? "/")%char) with true.
  parse_step.
  rewrite (skip_blanks_digit _ Dd), Dd. parse_step.
  rewrite Pd. parse_step.
  cbn [skip_blanks].
  destruct (Z.eqb_spec d 0) as [? | _]; [lia |].
  parse_step. cbn [Z.eqb negb]. parse_step.
  unfold set_numerator, set_denominator, set_whole.
  cbn [numerator denominator whole]. reflexivity.
Qed.

Lemma parse_toString_round_trip_witness :
  (0 <= 3 <= INT_MAX /\ 0 < 4 <= INT_MAX) /\
  Frac_cstr (mkFrac 9 9 9) (toString (mkFrac 3 4 0)) false = Ok (mkFrac 3 4 0).
Proof.
  assert (H1 : 0 <= 3 <= INT_MAX) by (unfold INT_MAX; lia).
  assert (H2 : 0 < 4 <= INT_MAX) by (unfold INT_MAX; lia).
  split; [exact (conj H1 H2) |].
  exact (parse_toString_round_trip (mkFrac 9 9 9) 3 4 H1 H2).
Defined.

(** X27.  The decimal text of a non-negative [int] [n], parsed as a
    fraction, yields numerator [n] and denominator [n]: the whole-number
    form stores the number in both fields. *)
Theorem parse_integer_text (uninit : Frac) (n : Z) :
  0 <= n <= INT_MAX ->
  Frac_cstr uninit (to_string n) false = Ok (mkFrac n n 0).
Proof.
  intros Hn.
  destruct (parse_digits_to_string n [] Hn eq_refl) as [Pn Dn].
  rewrite app_nil_r in Pn, Dn.
  now apply Frac_cstr_whole_number.
Qed.

Lemma parse_integer_text_witness :
  0 <= 25 <= INT_MAX /\
  Frac_cstr (mkFrac 9 9 9) (to_string 25) false = Ok (mkFrac 25 25 0).
Proof.
  assert (H : 0 <= 25 <= INT_MAX) by (unfold INT_MAX; lia).
  split; [exact H |].
  exact (parse_integer_text (mkFrac 9 9 9) 25 H).
Defined.

(** X28.  A text whose first character after leading blanks is not a digit
    -- the empty text, or one starting with a sign or a letter -- is
    rejected with the invalid-format exception, by the constructor and by
    assignment from text; the assigned-to object is left as it was. *)
Theorem parse_rejects_non_digit (uninit this : Frac) (s : string) (isSimplifying : bool) :
  isdigit (hd_error (skip_blanks (list_ascii_of_string s))) = false ->
  Frac_cstr uninit s isSimplifying = Err INVALID_STRING_PARAMETER_ERROR /\
  op_assign_cstr s this = (this, Err INVALID_STRING_PARAMETER_ERROR).
Proof.
  intros H. unfold Frac_cstr, op_assign_cstr. parse_unfold.
  rewrite H. parse_step. split; reflexivity.
Qed.

Lemma parse_rejects_non_digit_witness :
  isdigit (hd_error (skip_blanks (list_ascii_of_string " -1/2"))) = false /\
  Frac_cstr (mkFrac 9 9 9) " -1/2" true = Err INVALID_STRING_PARAMETER_ERROR /\
  op_assign_cstr " -1/2" (mkFrac 1 2 3) = (mkFrac 1 2 3, Err INVALID_STRING_PARAMETER_ERROR).
Proof.
  assert (H : isdigit (hd_error (skip_blanks (list_ascii_of_string " -1/2"))) = false)
    by reflexivity.
  split; [exact H |].
  exact (parse_rejects_non_digit (mkFrac 9 9 9) (mkFrac 1 2 3) " -1/2" true H).
Defined.

Lemma to_string_negative (n : Z) :
  n < 0 -> exists s, to_string n = String "-" s.
Proof.
  intros Hn. destruct n as [| p | p]; try lia.
  eexists. unfold to_string. cbn [Z.to_int NilZero.string_of_int]. reflexivity.
Qed.

(** X29.  What [toString] prints for a fraction whose first printed
    number is negative (a negative whole part, or no whole part and a
    negative numerator) is not accepted back: the parser has no rule for
    the sign and throws the invalid-format exception. *)
Theorem toString_negative_not_parsed (uninit f : Frac) (isSimplifying : bool) :
  whole f < 0 \/ (whole f = 0 /\ numerator f < 0) ->
  Frac_cstr uninit (toString f) isSimplifying = Err INVALID_STRING_PARAMETER_ERROR.
Proof.
  intros H.
  assert (Hs : exists s, toString f = String "-" s).
  { unfold toString. destruct H as [Hw | [Hw Hn]].
    - destruct (Z.eqb_spec (whole f) 0); [lia |]. cbn [negb].
      destruct (to_string_negative _ Hw) as [s ->]. eexists. reflexivity.
    - rewrite Hw. cbn [Z.eqb negb].
      destruct (to_string_negative _ Hn) as [s ->]. eexists. reflexivity. }
  destruct Hs as [s ->].
  unfold Frac_cstr. parse_unfold. cbn [list_ascii_of_string skip_blanks].
  change (is_blank "-") with false. parse_step.
  change (isdigit (Some "-"%char)) with false. parse_step. reflexivity.
Qed.

Lemma toString_negative_not_parsed_witness :
  (whole (mkFrac 1 2 (-1)) < 0 \/
   (whole (mkFrac 1 2 (-1)) = 0 /\ numerator (mkFrac 1 2 (-1)) < 0)) /\
  Frac_cstr (mkFrac 9 9 9) (toString (mkFrac 1 2 (-1))) false
  = Err INVALID_STRING_PARAMETER_ERROR.
Proof.
  assert (H : whole (mkFrac 1 2 (-1)) < 0 \/
              (whole (mkFrac 1 2 (-1)) = 0 /\ numerator (mkFrac 1 2 (-1)) < 0))
    by (left; cbn; lia).
  split; [exact H |].
  exact (toString_negative_not_parsed (mkFrac 9 9 9) (mkFrac 1 2 (-1)) false H).
Defined.

(** X30.  A printed mixed fraction with positive whole part, non-negative
    numerator and positive denominator is parsed to its improper form,
    provided [denominator * whole + numerator] fits in 32 bits: the
    result is what [toImproper] gives, with whole part 0. *)
Theorem parse_toString_mixed (uninit : Frac) (n d w : Z) :
  0 < w <= INT_MAX -> 0 <= n <= INT_MAX -> 0 < d <= INT_MAX ->
  d * w + n <= INT_MAX ->
  Frac_cstr uninit (toString (mkFrac n d w)) false = Ok (mkFrac (d * w + n) d 0) /\
  toImproper (mkFrac n d w) = mkFrac (d * w + n) d 0.
Proof.
  intros Hw Hn Hd Hsum.
  assert (Rd : in_range d) by (unfold in_range, INT_MIN, INT_MAX in *; lia).
  assert (Rw : in_range w) by (unfold in_range, INT_MIN, INT_MAX in *; lia).
  assert (Rn : in_range n) by (unfold in_range, INT_MIN, INT_MAX in *; lia).
  assert (Rp : in_range (d * w)) by (unfold in_range, INT_MIN, INT_MAX in *; nia).
  assert (Rs : in_range (d * w + n)) by (unfold in_range, INT_MIN, INT_MAX in *; nia).
  assert (Em : mul d w = d * w) by (now apply wrap_id).
  assert (Ea : add (d * w) n = d * w + n) by (now apply wrap_id).
  split.
  - unfold toString. cbn [whole numerator denominator].
    destruct (Z.eqb_spec w 0) as [? | _]; [lia |]. cbn [negb].
    unfold Frac_cstr. rewrite !list_ascii_of_string_app.
    cbn [list_ascii_of_string app].
    set (Ld := list_ascii_of_string (to_string d)).
    set (Ln := list_ascii_of_string (to_string n)).
    set (Lw := list_ascii_of_string (to_string w)).
    destruct (parse_digits_to_string w (" "%char :: Ln ++ "/"%char :: Ld)
                ltac:(lia) eq_refl) as [Pw Dw].
    destruct (parse_digits_to_string n ("/"%char :: Ld) Hn eq_refl) as [Pn Dn].
    destruct (parse_digits_to_string d [] ltac:(lia) eq_refl) as [Pd Dd].
    fold Lw in Pw, Dw. fold Ln in Pn, Dn. fold Ld in Pd, Dd.
    rewrite app_nil_r in Pd, Dd.
    parse_unfold.
    rewrite (skip_blanks_digit _ Dw), Dw. parse_step.
    rewrite Pw. parse_step.
    change ((" " =? " ")%char) with true. parse_step.
    rewrite (skip_blanks_digit _ Dn), Dn. parse_step.
    rewrite Pn. parse_step.
    change (("/" =? "/")%char) with true. parse_step.
    rewrite (skip_blanks_digit _ Dd), Dd. parse_step.
    rewrite Pd. parse_step.
    cbn [skip_blanks].
    destruct (Z.eqb_spec d 0) as [? | _]; [lia |]. parse_step.
    destruct (Z.eqb_spec w 0) as [? | _]; [lia |]. parse_step.
    unfold set_numerator, set_denominator, set_whole.
    cbn [numerator denominator whole]. parse_step.
    assert (Cm : willMultiplicationOverflow d w = false).
    { rewrite willMultiplicationOverflow_in_rangeb by assumption.
      apply negb_false_iff. now apply in_rangeb_spec. }
    rewrite Cm. parse_step. cbn [numerator denominator whole].
    rewrite Em.
    assert (Ca : willAdditionOverflow (d * w) n = false).
    { rewrite willAdditionOverflow_in_rangeb by assumption.
      apply negb_false_iff. now apply in_rangeb_spec. }
    rewrite Ca. parse_step. cbn [numerator denominator whole].
    rewrite Ea. reflexivity.
  - unfold toImproper, Frac_copy, set_whole, set_numerator.
    cbn [numerator denominator whole].
    rewrite (mul_comm w d), Em, Ea. reflexivity.
Qed.

Lemma parse_toString_mixed_witness :
  (0 < 1 <= INT_MAX /\ 0 <= 1 <= INT_MAX /\ 0 < 2 <= INT_MAX /\
   2 * 1 + 1 <= INT_MAX) /\
  Frac_cstr (mkFrac 9 9 9) (toString (mkFrac 1 2 1)) false = Ok (mkFrac (2 * 1 + 1) 2 0) /\
  toImproper (mkFrac 1 2 1) = mkFrac (2 * 1 + 1) 2 0.
Proof.
  assert (H1 : 0 < 1 <= INT_MAX) by (unfold INT_MAX; lia).
  assert (H2 : 0 <= 1 <= INT_MAX) by (unfold INT_MAX; lia).
  assert (H3 : 0 < 2 <= INT_MAX) by (unfold INT_MAX; lia).
  assert (H4 : 2 * 1 + 1 <= INT_MAX) by (unfold INT_MAX; lia).
  split; [exact (conj H1 (conj H2 (conj H3 H4))) |].
  exact (parse_toString_mixed (mkFrac 9 9 9) 1 2 1 H1 H2 H3 H4).
Defined.
